(** * Lunatik [cpustat]: per-CPU time accounting exposed to Lua

    A shallow embedding of [lib/luacpustat.c] (the registry-driven binding) and
    of its hard-coded predecessor, together with the properties of [get] and
    [count] that the design document states about them.

    The C code runs against two outside worlds: the Linux kernel (the number
    of CPU slots, the possible-CPU mask, the per-CPU [kernel_cpustat]
    structures) and the Lua C API (a value stack, tables, errors raised by
    [luaL_error]).  Both are modelled explicitly: the kernel as a record the
    functions read from, the Lua side as a small state-and-error monad.

    The test script [tests/cpustat_test.lua], the module's caller in the
    repository, is embedded as well, as a program in a small monad of
    scripts that print, assert and call the two functions. *)

From Stdlib Require Import ZArith Lia Ascii String DecimalString.
From stdpp Require Import base numbers strings list list_numbers gmap.

Local Open Scope Z_scope.

(** ** C integer types *)

Module CInt.

(** Conversion to an unsigned type of [bits] bits: reduction modulo [2^bits]. *)
Definition wrap_unsigned (bits z : Z) : Z := z mod 2 ^ bits.

(** Conversion to a signed two's-complement type of [bits] bits (what gcc
    and clang do on a narrowing conversion). *)
Definition wrap_signed (bits z : Z) : Z :=
  (z + 2 ^ (bits - 1)) mod 2 ^ bits - 2 ^ (bits - 1).

Definition INT_MIN : Z := - 2 ^ 31.
Definition INT_MAX : Z := 2 ^ 31 - 1.

(** [int], [unsigned int], [u64] and [lua_Integer] (a 64-bit [long long],
    the Lua 5.4 default that Lunatik keeps). *)
Definition to_int : Z → Z := wrap_signed 32.
Definition to_uint : Z → Z := wrap_unsigned 32.
Definition to_u64 : Z → Z := wrap_unsigned 64.
Definition to_lua_Integer : Z → Z := wrap_signed 64.

Definition is_int (z : Z) : Prop := INT_MIN ≤ z ≤ INT_MAX.
Definition is_uint (z : Z) : Prop := 0 ≤ z < 2 ^ 32.
Definition is_u64 (z : Z) : Prop := 0 ≤ z < 2 ^ 64.
Definition is_lua_Integer (z : Z) : Prop := - 2 ^ 63 ≤ z < 2 ^ 63.

End CInt.
Export CInt.

(** ** The kernel side *)

(** [enum cpu_usage_stat] of [<linux/kernel_stat.h>]: consecutive values from
    zero, in the header's order.  [CPUTIME_FORCEIDLE] only exists under
    [CONFIG_SCHED_CORE]; [NR_STATS] closes the enumeration. *)
Definition CPUTIME_USER : nat := 0.
Definition CPUTIME_NICE : nat := 1.
Definition CPUTIME_SYSTEM : nat := 2.
Definition CPUTIME_SOFTIRQ : nat := 3.
Definition CPUTIME_IRQ : nat := 4.
Definition CPUTIME_IDLE : nat := 5.
Definition CPUTIME_IOWAIT : nat := 6.
Definition CPUTIME_STEAL : nat := 7.
Definition CPUTIME_GUEST : nat := 8.
Definition CPUTIME_GUEST_NICE : nat := 9.
Definition CPUTIME_FORCEIDLE : nat := 10.

(** What the module sees of a running kernel.  [nr_cpu_ids] is an
    [unsigned int]; [cpu_possible] is the possible-CPU mask; [kcpustat c] is
    the [cpustat] array ([u64 [NR_STATS]]) of [kcpustat_cpu(c)]. *)
Record kernel := Kernel {
  CONFIG_SCHED_CORE : bool;
  nr_cpu_ids : Z;
  cpu_possible : Z → bool;
  kcpustat : Z → list Z
}.

Definition NR_STATS (k : kernel) : nat :=
  if CONFIG_SCHED_CORE k then 11%nat else 10%nat.

(** The CPUs visited by [for_each_possible_cpu]: the set bits of the possible
    mask below [nr_cpu_ids], in increasing order. *)
Definition possible_cpus (k : kernel) : list Z :=
  filter (λ c, cpu_possible k c = true) (seqZ 0 (nr_cpu_ids k)).

(** The kernel hands out well-typed data: [nr_cpu_ids] is a positive
    [unsigned int] that also fits an [int], and every CPU slot has a full
    vector of [u64] counters. *)
Definition vector_ok (k : kernel) (v : list Z) : Prop :=
  length v = NR_STATS k ∧ Forall is_u64 v.

Definition kernel_ok (k : kernel) : Prop :=
  0 < nr_cpu_ids k ≤ INT_MAX ∧
  Forall (λ c, vector_ok k (kcpustat k c)) (seqZ 0 (nr_cpu_ids k)).

(** ** The Lua side *)

#[warnings="-register-all"]
Inductive lua_value :=
  | LNil
  | LInteger (n : Z)
  | LTable (t : gmap string lua_value).

(** An error raised through [luaL_error]: the format string and its
    arguments. *)
Record lua_error := LuaError {
  err_fmt : string;
  err_args : list Z
}.

(** The state threaded through a C function: the Lua stack of the call
    (bottom first, so that stack index [i] is position [i - 1]) and the log of
    per-CPU structures read from the kernel so far. *)
Record state := State {
  stack : list lua_value;
  reads : list Z
}.

Inductive outcome (A : Type) :=
  | Done (a : A) (s : state)
  | Raised (e : lua_error).
Arguments Done {A} a s.
Arguments Raised {A} e.

Definition lua (A : Type) : Type := state → outcome A.

#[global] Instance lua_ret : MRet lua := λ A a s, Done a s.
#[global] Instance lua_bind : MBind lua := λ A B f m s,
  match m s with
  | Done a s' => f a s'
  | Raised e => Raised e
  end.

(** [luaL_error]: never returns to the caller. *)
Definition luaL_error {A} (fmt : string) (args : list Z) : lua A :=
  λ _, Raised (LuaError fmt args).

(** [luaL_optinteger(L, arg, def)]: the default when the argument is absent
    or nil, the integer when it is one.  Anything else is an argument error
    of the auxiliary library (its message is abridged here; the calls studied
    below pass an integer or nothing). *)
Definition luaL_optinteger (arg : nat) (def : Z) : lua Z := λ s,
  match stack s !! pred arg with
  | None | Some LNil => Done def s
  | Some (LInteger n) => Done n s
  | Some (LTable _) =>
      Raised (LuaError "bad argument #%d (number expected, got table)" [Z.of_nat arg])
  end.

Definition lua_push (v : lua_value) : lua unit := λ s,
  Done () (State (stack s ++ [v]) (reads s)).

Definition lua_createtable (narr nrec : nat) : lua unit := lua_push (LTable ∅).
Definition lua_pushinteger (n : Z) : lua unit := lua_push (LInteger n).

Definition lua_gettop : lua nat := λ s, Done (length (stack s)) s.

(** [lua_setfield(L, idx, key)]: pops the value on top of the stack and
    stores it under [key] in the table at stack index [idx]; storing nil
    removes the key.  On an empty stack or a non-table the C API is misused;
    the model stops with an error there, and the functions below never get
    there. *)
Definition lua_setfield (idx : nat) (key : string) : lua unit := λ s,
  match reverse (stack s) with
  | [] => Raised (LuaError "stack underflow" [])
  | v :: rest =>
      let below := reverse rest in
      match below !! pred idx with
      | Some (LTable t) =>
          let t' := match v with LNil => delete key t | _ => <[key := v]> t end in
          Done () (State (<[pred idx := LTable t']> below) (reads s))
      | _ => Raised (LuaError "attempt to index a non-table value" [])
      end
  end.

(** [kcpustat_cpu(cpu)]: one read of that CPU's structure. *)
Definition kcpustat_cpu (k : kernel) (cpu : Z) : lua (list Z) := λ s,
  Done (kcpustat k cpu) (State (stack s) (reads s ++ [cpu])).

Fixpoint for_each {A} (l : list A) (body : A → lua unit) : lua unit :=
  match l with
  | [] => mret ()
  | x :: l' => body x ;; for_each l' body
  end.

Fixpoint fold_each {A B} (l : list A) (body : B → A → lua B) (b : B) : lua B :=
  match l with
  | [] => mret b
  | x :: l' => b' ← body b x; fold_each l' body b'
  end.

(** ** The counter registry *)

(** [lunatik_reg_t]: a name and a value; a [NULL] name ends a table. *)
Record lunatik_reg_t := Reg {
  name : option string;
  value : nat
}.

Definition cpu_usage_stat (k : kernel) : list lunatik_reg_t :=
  [ Reg (Some "USER") CPUTIME_USER;
    Reg (Some "NICE") CPUTIME_NICE;
    Reg (Some "SYSTEM") CPUTIME_SYSTEM;
    Reg (Some "SOFTIRQ") CPUTIME_SOFTIRQ;
    Reg (Some "IRQ") CPUTIME_IRQ;
    Reg (Some "IDLE") CPUTIME_IDLE;
    Reg (Some "IOWAIT") CPUTIME_IOWAIT;
    Reg (Some "STEAL") CPUTIME_STEAL;
    Reg (Some "GUEST") CPUTIME_GUEST;
    Reg (Some "GUEST_NICE") CPUTIME_GUEST_NICE ]
  ++ (if CONFIG_SCHED_CORE k then [ Reg (Some "FORCEIDLE") CPUTIME_FORCEIDLE ] else [])
  ++ [ Reg None 0 ].

(** The rows a loop [for (i = 0; table[i].name != NULL; i++)] visits. *)
Fixpoint rows (table : list lunatik_reg_t) : list (string * nat) :=
  match table with
  | [] => []
  | r :: table' =>
      match name r with
      | None => []
      | Some s => (s, value r) :: rows table'
      end
  end.

(** The lowercase conversion of [luacpustat_get]: at most [room] characters
    are copied into the buffer ([sizeof(field_name) - 1 = 31]), letters
    ['A'..'Z'] shifted by 32. *)
Definition lower_char (c : ascii) : ascii :=
  let n := nat_of_ascii c in
  if bool_decide (nat_of_ascii "A" ≤ n ≤ nat_of_ascii "Z")%nat
  then ascii_of_nat (n + 32) else c.

Fixpoint lower_into (room : nat) (src : string) : string :=
  match room, src with
  | S room', String c src' => String (lower_char c) (lower_into room' src')
  | _, _ => EmptyString
  end.

Definition field_name (src : string) : string := lower_into 31 src.

(** ** [luacpustat_get] and [luacpustat_count] *)

(** The inner loops over the registry.  [stats] is the local array
    [u64 stats[NR_STATS]]; [kcs] is the copied [cpustat] array.  Reading a
    list out of range yields 0 and writing out of range does nothing: in C
    both would be undefined, and neither happens, every registered slot being
    below [NR_STATS]. *)
Definition copy_stats (regs : list (string * nat)) (kcs stats : list Z) : list Z :=
  foldl (λ stats r, <[r.2 := kcs !!! r.2]> stats) stats regs.

Definition add_stats (regs : list (string * nat)) (kcs stats : list Z) : list Z :=
  foldl (λ stats r, <[r.2 := to_u64 (stats !!! r.2 + kcs !!! r.2)]> stats) stats regs.

Definition luacpustat_get (k : kernel) : lua Z :=
  n ← luaL_optinteger 1 (-1);
  let cpu := to_int n in
  let regs := rows (cpu_usage_stat k) in
  let stats := replicate (NR_STATS k) 0 in
  stats ←
    (if bool_decide (0 ≤ cpu) then
       if bool_decide (nr_cpu_ids k ≤ to_uint cpu) then
         luaL_error "invalid CPU number: %d (max: %d)"
                    [cpu; to_int (to_uint (nr_cpu_ids k - 1))]
       else
         kcs ← kcpustat_cpu k cpu;
         mret (copy_stats regs kcs stats)
     else
       fold_each (possible_cpus k)
         (λ stats i, kcs ← kcpustat_cpu k i; mret (add_stats regs kcs stats))
         stats);
  lua_createtable 0 (NR_STATS k);;
  table ← lua_gettop;
  for_each regs (λ r,
    lua_pushinteger (to_lua_Integer (stats !!! r.2));;
    lua_setfield table (field_name r.1));;
  mret 1.

Definition luacpustat_count (k : kernel) : lua Z :=
  lua_pushinteger (to_lua_Integer (nr_cpu_ids k));;
  mret 1.

(** ** Calling a C function from Lua *)

Inductive call_result :=
  | Returned (results : list lua_value) (log : list Z)
  | Failed (e : lua_error).

(** The function runs on a stack holding its arguments; the [n] values it
    leaves on top are its results. *)
Definition lua_call (f : lua Z) (args : list lua_value) : call_result :=
  match f (State args []) with
  | Done n s => Returned (drop (length (stack s) - Z.to_nat n) (stack s)) (reads s)
  | Raised e => Failed e
  end.

Definition args_of (arg : option Z) : list lua_value :=
  match arg with
  | None => []
  | Some i => [LInteger i]
  end.

(** [cpustat.get([cpu])] and [cpustat.count()]. *)
Definition get (k : kernel) (arg : option Z) : call_result :=
  lua_call (luacpustat_get k) (args_of arg).

Definition count (k : kernel) (args : list lua_value) : call_result :=
  lua_call (luacpustat_count k) args.

(** ** The hard-coded predecessor of [luacpustat_get] *)

(** The ten local accumulators of the earlier version. *)
Record fields := Fields {
  user : Z; nice : Z; system : Z; idle : Z; iowait : Z;
  irq : Z; softirq : Z; steal : Z; guest : Z; guest_nice : Z
}.

Definition load_fields (kcs : list Z) : fields :=
  {| user := kcs !!! CPUTIME_USER;
     nice := kcs !!! CPUTIME_NICE;
     system := kcs !!! CPUTIME_SYSTEM;
     idle := kcs !!! CPUTIME_IDLE;
     iowait := kcs !!! CPUTIME_IOWAIT;
     irq := kcs !!! CPUTIME_IRQ;
     softirq := kcs !!! CPUTIME_SOFTIRQ;
     steal := kcs !!! CPUTIME_STEAL;
     guest := kcs !!! CPUTIME_GUEST;
     guest_nice := kcs !!! CPUTIME_GUEST_NICE |}.

Definition add_fields (kcs : list Z) (f : fields) : fields :=
  {| user := to_u64 (user f + kcs !!! CPUTIME_USER);
     nice := to_u64 (nice f + kcs !!! CPUTIME_NICE);
     system := to_u64 (system f + kcs !!! CPUTIME_SYSTEM);
     idle := to_u64 (idle f + kcs !!! CPUTIME_IDLE);
     iowait := to_u64 (iowait f + kcs !!! CPUTIME_IOWAIT);
     irq := to_u64 (irq f + kcs !!! CPUTIME_IRQ);
     softirq := to_u64 (softirq f + kcs !!! CPUTIME_SOFTIRQ);
     steal := to_u64 (steal f + kcs !!! CPUTIME_STEAL);
     guest := to_u64 (guest f + kcs !!! CPUTIME_GUEST);
     guest_nice := to_u64 (guest_nice f + kcs !!! CPUTIME_GUEST_NICE) |}.

Definition luacpustat_get_hardcoded (k : kernel) : lua Z :=
  n ← luaL_optinteger 1 (-1);
  let cpu := to_int n in
  let nrec := 10%nat in
  f ←
    (if bool_decide (0 ≤ cpu) then
       if bool_decide (nr_cpu_ids k ≤ to_uint cpu) then
         luaL_error "invalid CPU number: %d (max: %d)"
                    [cpu; to_int (to_uint (nr_cpu_ids k - 1))]
       else
         kcs ← kcpustat_cpu k cpu;
         mret (load_fields kcs)
     else
       fold_each (possible_cpus k)
         (λ f i, kcs ← kcpustat_cpu k i; mret (add_fields kcs f))
         (Fields 0 0 0 0 0 0 0 0 0 0));
  lua_createtable 0 nrec;;
  table ← lua_gettop;
  lua_pushinteger (to_lua_Integer (user f));; lua_setfield table "user";;
  lua_pushinteger (to_lua_Integer (nice f));; lua_setfield table "nice";;
  lua_pushinteger (to_lua_Integer (system f));; lua_setfield table "system";;
  lua_pushinteger (to_lua_Integer (idle f));; lua_setfield table "idle";;
  lua_pushinteger (to_lua_Integer (iowait f));; lua_setfield table "iowait";;
  lua_pushinteger (to_lua_Integer (irq f));; lua_setfield table "irq";;
  lua_pushinteger (to_lua_Integer (softirq f));; lua_setfield table "softirq";;
  lua_pushinteger (to_lua_Integer (steal f));; lua_setfield table "steal";;
  lua_pushinteger (to_lua_Integer (guest f));; lua_setfield table "guest";;
  lua_pushinteger (to_lua_Integer (guest_nice f));; lua_setfield table "guest_nice";;
  mret 1.

Definition get_hardcoded (k : kernel) (arg : option Z) : call_result :=
  lua_call (luacpustat_get_hardcoded k) (args_of arg).

(** ** The message of an error *)

(** Decimal rendering of a [%d] argument. *)
Definition decimal (z : Z) : string := NilZero.string_of_int (Z.to_int z).

(** The part of [lua_pushvfstring] that [luaL_error] needs here: every [%d]
    consumes one argument. *)
Fixpoint format (fmt : string) (args : list Z) : string :=
  match fmt with
  | EmptyString => EmptyString
  | String c rest =>
      match rest with
      | String d rest' =>
          if bool_decide (c = "%"%char ∧ d = "d"%char) then
            match args with
            | a :: args' => decimal a +:+ format rest' args'
            | [] => format rest' []
            end
          else String c (format rest args)
      | EmptyString => String c EmptyString
      end
  end.

Definition message (e : lua_error) : string := format (err_fmt e) (err_args e).

(** The two numbers an invalid-CPU error carries: the offending CPU number
    and the bound printed after it. *)
Definition reported_index (e : lua_error) : option Z := err_args e !! 0%nat.
Definition reported_bound (e : lua_error) : option Z := err_args e !! 1%nat.

(** ** What the loops compute *)

(** The table left by the emission loop, started on table [t]. *)
Definition emit (regs : list (string * nat)) (stats : list Z)
    (t : gmap string lua_value) : gmap string lua_value :=
  foldl (λ t r, <[field_name r.1 := LInteger (to_lua_Integer (stats !!! r.2))]> t) t regs.

(** The accumulator left by the aggregation loop over [cpus]. *)
Definition aggregate (k : kernel) (regs : list (string * nat)) (cpus : list Z)
    (stats : list Z) : list Z :=
  foldl (λ stats i, add_stats regs (kcpustat k i) stats) stats cpus.

Definition snapshot (k : kernel) (stats : list Z) : lua_value :=
  LTable (emit (rows (cpu_usage_stat k)) stats ∅).

(** [stats] after [memset]. *)
Definition zeros (k : kernel) : list Z := replicate (NR_STATS k) 0.

(** The local [int cpu]: the argument, [-1] by default, narrowed. *)
Definition arg_cpu (arg : option Z) : Z := to_int (default (-1) arg).

Definition invalid_cpu (cpu max : Z) : lua_error :=
  LuaError "invalid CPU number: %d (max: %d)" [cpu; max].

(** [luacpustat_get] in closed form: the error, one CPU's snapshot, or the
    aggregate, decided by the argument once narrowed to [int]. *)
Definition get_closed (k : kernel) (arg : option Z) : call_result :=
  let cpu := arg_cpu arg in
  let regs := rows (cpu_usage_stat k) in
  if bool_decide (0 ≤ cpu) then
    if bool_decide (nr_cpu_ids k ≤ to_uint cpu) then
      Failed (invalid_cpu cpu (to_int (to_uint (nr_cpu_ids k - 1))))
    else
      Returned [snapshot k (copy_stats regs (kcpustat k cpu) (zeros k))] [cpu]
  else
    Returned [snapshot k (aggregate k regs (possible_cpus k) (zeros k))]
             (possible_cpus k).

(** The table of the hard-coded version, in the order of its ten stores. *)
Definition fields_table (f : fields) : lua_value :=
  LTable
    (<["guest_nice"%string := LInteger (to_lua_Integer (guest_nice f))]>
    (<["guest"%string := LInteger (to_lua_Integer (guest f))]>
    (<["steal"%string := LInteger (to_lua_Integer (steal f))]>
    (<["softirq"%string := LInteger (to_lua_Integer (softirq f))]>
    (<["irq"%string := LInteger (to_lua_Integer (irq f))]>
    (<["iowait"%string := LInteger (to_lua_Integer (iowait f))]>
    (<["idle"%string := LInteger (to_lua_Integer (idle f))]>
    (<["system"%string := LInteger (to_lua_Integer (system f))]>
    (<["nice"%string := LInteger (to_lua_Integer (nice f))]>
    (<["user"%string := LInteger (to_lua_Integer (user f))]> ∅)))))))))).

(** The accumulator array that holds the same counters as the ten locals. *)
Definition fields_stats (f : fields) : list Z :=
  [ user f; nice f; system f; softirq f; irq f; idle f; iowait f; steal f;
    guest f; guest_nice f ].

Definition no_fields : fields := Fields 0 0 0 0 0 0 0 0 0 0.

Definition get_hardcoded_closed (k : kernel) (arg : option Z) : call_result :=
  let cpu := arg_cpu arg in
  if bool_decide (0 ≤ cpu) then
    if bool_decide (nr_cpu_ids k ≤ to_uint cpu) then
      Failed (invalid_cpu cpu (to_int (to_uint (nr_cpu_ids k - 1))))
    else
      Returned [fields_table (load_fields (kcpustat k cpu))] [cpu]
  else
    Returned [fields_table
                (foldl (λ f i, add_fields (kcpustat k i) f) no_fields (possible_cpus k))]
             (possible_cpus k).

(** ** Vocabulary of the properties *)

Definition fails (r : call_result) : Prop := ∃ e, r = Failed e.

(** A call returns one table, and that table satisfies [P]. *)
Definition returns_table (r : call_result) (P : gmap string lua_value → Prop) : Prop :=
  ∃ t log, r = Returned [LTable t] log ∧ P t.

(** The calls that get past the range check: the [int] value of the argument
    is negative or below [nr_cpu_ids]. *)
Definition accepted (k : kernel) (arg : option Z) : Prop :=
  arg_cpu arg < 0 ∨ to_uint (arg_cpu arg) < nr_cpu_ids k.

(** The names the emission loop produces for a list of rows. *)
Definition keys (regs : list (string * nat)) : list string :=
  field_name <$> regs.*1.

Definition registry_names (k : kernel) : list string :=
  keys (rows (cpu_usage_stat k)).

(** The table has the registry's names as keys, no more and no fewer. *)
Definition complete (k : kernel) (t : gmap string lua_value) : Prop :=
  dom t = list_to_set (registry_names k) ∧
  size t = length (rows (cpu_usage_stat k)).

Definition Zsum (l : list Z) : Z := foldr Z.add 0 l.

(** The exact sum of counter [i] over the CPUs of [cpus]. *)
Definition counter_sum (k : kernel) (cpus : list Z) (i : nat) : Z :=
  Zsum ((λ c, kcpustat k c !!! i) <$> cpus).

(** The ten rows every build has, and their lowercase names. *)
Definition base_rows : list (string * nat) :=
  [ ("USER", CPUTIME_USER); ("NICE", CPUTIME_NICE); ("SYSTEM", CPUTIME_SYSTEM);
    ("SOFTIRQ", CPUTIME_SOFTIRQ); ("IRQ", CPUTIME_IRQ); ("IDLE", CPUTIME_IDLE);
    ("IOWAIT", CPUTIME_IOWAIT); ("STEAL", CPUTIME_STEAL);
    ("GUEST", CPUTIME_GUEST); ("GUEST_NICE", CPUTIME_GUEST_NICE) ]%string.

Definition base_names : list string :=
  [ "user"; "nice"; "system"; "softirq"; "irq"; "idle"; "iowait"; "steal";
    "guest"; "guest_nice" ]%string.

(** Modelled on the design document's words, for comparison with
    [field_name]: the transliteration that sends each uppercase letter of the
    alphabet to the lowercase letter at the same place and leaves every other
    character alone, applied to a whole string. *)
Definition upper_letters : list ascii := list_ascii_of_string "ABCDEFGHIJKLMNOPQRSTUVWXYZ".
Definition lower_letters : list ascii := list_ascii_of_string "abcdefghijklmnopqrstuvwxyz".

Fixpoint translit (from to : list ascii) (c : ascii) : ascii :=
  match from, to with
  | a :: from', b :: to' => if Ascii.eqb c a then b else translit from' to' c
  | _, _ => c
  end.

Fixpoint spec_transliterate (s : string) : string :=
  match s with
  | EmptyString => EmptyString
  | String c s' => String (translit upper_letters lower_letters c) (spec_transliterate s')
  end.

(** The field names as the design document lists them. *)
Definition spec_names : list string :=
  [ "user"; "nice"; "system"; "idle"; "iowait"; "irq"; "softirq"; "steal";
    "guest"; "guest_nice" ]%string.

Definition fixed_names (k : kernel) : gset string :=
  list_to_set spec_names ∪ (if CONFIG_SCHED_CORE k then {["forceidle"%string]} else ∅).

(** The keys are the transliterated spellings, and they are the fixed names. *)
Definition named (k : kernel) (t : gmap string lua_value) : Prop :=
  dom t = list_to_set (spec_transliterate <$> (rows (cpu_usage_stat k)).*1) ∧
  dom t = fixed_names k ∧
  ("forceidle"%string ∈ dom t ↔ CONFIG_SCHED_CORE k = true).

(** ** Example kernels *)

(** Four CPUs, all possible, no core scheduling; CPU [c] has counters
    [10 c + 1 .. 10 c + 10]. *)
Definition k4 : kernel :=
  Kernel false 4 (λ _, true) (λ c, (λ j, 10 * c + j) <$> seqZ 1 10).

(** Two CPUs, the second with a [guest_nice] counter of [2^64 - 1]. *)
Definition k2 : kernel :=
  Kernel false 2 (λ _, true)
    (λ c, if bool_decide (c = 0) then [1; 2; 3; 4; 5; 6; 7; 8; 9; 10]
          else [100; 200; 300; 400; 500; 600; 700; 800; 900; 2 ^ 64 - 1]).

(** One CPU whose [user] counter has reached [2^63]. *)
Definition k_top : kernel :=
  Kernel false 1 (λ _, true) (λ _, [2 ^ 63; 0; 0; 0; 0; 0; 0; 0; 0; 0]).

(** Two CPUs that have each idled for [2^62] units. *)
Definition k_idle : kernel :=
  Kernel false 2 (λ _, true) (λ _, [0; 0; 0; 0; 0; 2 ^ 62; 0; 0; 0; 0]).

(** Three CPU slots of which slot 1 is not possible, core scheduling on. *)
Definition k_core : kernel :=
  Kernel true 3 (λ c, negb (bool_decide (c = 1)))
    (λ c, [c; 1; 2; 3; 4; 5; 6; 7; 8; 9; 10]).

(** ** Reading a result, Lua arithmetic *)

(** The integer a returned table binds to [key], if any. *)
Definition lookup_field (r : call_result) (key : string) : option Z :=
  match r with
  | Returned [LTable t] _ =>
      match t !! key with
      | Some (LInteger n) => Some n
      | _ => None
      end
  | _ => None
  end.

(** Integer addition and subtraction in Lua 5.4: the result wraps around. *)
Definition lua_add (a b : Z) : Z := to_lua_Integer (a + b).
Definition lua_sub (a b : Z) : Z := to_lua_Integer (a - b).

(** [sum = sum + x] over a list, from zero. *)
Definition lua_sum (l : list Z) : Z := foldl lua_add 0 l.

(** ** [luacpustat_get] on an arbitrary stack *)

(** What [luaL_optinteger(L, 1, -1)] makes of an argument list: nothing for
    an absent or nil first argument, the integer for an integer. *)
Definition first_integer (args : list lua_value) : option (option Z) :=
  match args with
  | [] | LNil :: _ => Some None
  | LInteger n :: _ => Some (Some n)
  | LTable _ :: _ => None
  end.

(** [luacpustat_get] in closed form on the stack [args], with [rd] already
    read. *)
Definition get_outcome (k : kernel) (arg : option Z) (args : list lua_value)
    (rd : list Z) : outcome Z :=
  let cpu := arg_cpu arg in
  let regs := rows (cpu_usage_stat k) in
  if bool_decide (0 ≤ cpu) then
    if bool_decide (nr_cpu_ids k ≤ to_uint cpu) then
      Raised (invalid_cpu cpu (to_int (to_uint (nr_cpu_ids k - 1))))
    else
      Done 1 (State (args ++ [snapshot k (copy_stats regs (kcpustat k cpu) (zeros k))])
                    (rd ++ [cpu]))
  else
    Done 1 (State (args ++ [snapshot k (aggregate k regs (possible_cpus k) (zeros k))])
                  (rd ++ possible_cpus k)).

(** The two tables [get] builds. *)
Definition cpu_table (k : kernel) (i : Z) : gmap string lua_value :=
  emit (rows (cpu_usage_stat k))
       (copy_stats (rows (cpu_usage_stat k)) (kcpustat k i) (zeros k)) ∅.

Definition all_table (k : kernel) : gmap string lua_value :=
  emit (rows (cpu_usage_stat k))
       (aggregate k (rows (cpu_usage_stat k)) (possible_cpus k) (zeros k)) ∅.

(** The map inside [fields_table]. *)
Definition fields_map (f : fields) : gmap string lua_value :=
  match fields_table f with
  | LTable t => t
  | _ => ∅
  end.

(** The letters the lowercase loop rewrites. *)
Definition is_upper (c : ascii) : Prop :=
  (nat_of_ascii "A" ≤ nat_of_ascii c ≤ nat_of_ascii "Z")%nat.

(** ** The test script [tests/cpustat_test.lua] *)

(** A script either runs to its end or is aborted by a failed [assert], by an
    error raised in a C function, or by an operation on a value of the wrong
    type.  Either way it has printed some lines; [print] is recorded by its
    argument. *)
Inductive script_error :=
  | AssertionFailed (msg : string)
  | CallFailed (e : lua_error)
  | BadOperand.

Inductive script_result (A : Type) :=
  | Finished (a : A) (out : list string)
  | Aborted (e : script_error) (out : list string).
Arguments Finished {A} a out.
Arguments Aborted {A} e out.

Definition script (A : Type) : Type := list string → script_result A.

#[global] Instance script_ret : MRet script := λ A a out, Finished a out.
#[global] Instance script_bind : MBind script := λ A B f m out,
  match m out with
  | Finished a out' => f a out'
  | Aborted e out' => Aborted e out'
  end.

Definition lua_abort {A} (e : script_error) : script A := λ out, Aborted e out.

Definition lua_print (line : string) : script unit := λ out, Finished () (out ++ [line]).

(** [assert(cond, msg)] *)
Definition lua_assert (cond : bool) (msg : string) : script unit :=
  if cond then mret () else lua_abort (AssertionFailed msg).

(** [pcall(function() body end)], for its first result. *)
Definition lua_pcall {A} (body : script A) : script bool := λ out,
  match body out with
  | Finished _ out' => Finished true out'
  | Aborted _ out' => Finished false out'
  end.

(** A call to a C function, used for its first result. *)
Definition lua_callf (r : call_result) : script lua_value :=
  match r with
  | Returned (v :: _) _ => mret v
  | Returned [] _ => mret LNil
  | Failed e => lua_abort (CallFailed e)
  end.

(** [v.key] *)
Definition lua_index (v : lua_value) (key : string) : script lua_value :=
  match v with
  | LTable t => mret (default LNil (t !! key))
  | _ => lua_abort BadOperand
  end.

(** A value used as an integer: in arithmetic, in a comparison with a
    number, under [%d]. *)
Definition lua_integer (v : lua_value) : script Z :=
  match v with
  | LInteger n => mret n
  | _ => lua_abort BadOperand
  end.

Definition lua_field (v : lua_value) (key : string) : script Z :=
  x ← lua_index v key; lua_integer x.

(** Everything but nil counts as true (the model has no booleans). *)
Definition truthy (v : lua_value) : bool :=
  match v with LNil => false | _ => true end.

(** [type(v) == "table"] *)
Definition is_table (v : lua_value) : bool :=
  match v with LTable _ => true | _ => false end.

Fixpoint lua_for (l : list Z) (body : Z → script unit) : script unit :=
  match l with
  | [] => mret ()
  | i :: l' => body i ;; lua_for l' body
  end.

Fixpoint lua_for_acc (l : list Z) (body : Z → Z → script Z) (acc : Z) : script Z :=
  match l with
  | [] => mret acc
  | i :: l' => acc' ← body i acc; lua_for_acc l' body acc'
  end.

(** The values of [i] in [for i = 0, num_cpus - 1 do ... end]. *)
Definition cpu_range (num_cpus : Z) : list Z := seqZ 0 (lua_sub num_cpus 1 + 1).

(** The newline character. *)
Definition nl : string := String (ascii_of_nat 10) EmptyString.

(** [cpustat.get(...)] and [cpustat.count()] as the script calls them. *)
Definition cpustat_get (k : kernel) (arg : option Z) : script lua_value :=
  lua_callf (get k arg).

Definition cpustat_count (k : kernel) : script lua_value :=
  lua_callf (count k []).

(** [assert(s.key, msg)] *)
Definition has_field (s : lua_value) (key msg : string) : script unit :=
  v ← lua_index s key; lua_assert (truthy v) msg.

(** [s.user + s.nice + s.system + s.idle + s.iowait + s.irq + s.softirq +
    s.steal], added from the left. *)
Definition busy_total (s : lua_value) : script Z :=
  user ← lua_field s "user"; nice ← lua_field s "nice";
  let acc := lua_add user nice in
  system ← lua_field s "system";
  let acc := lua_add acc system in
  idle ← lua_field s "idle";
  let acc := lua_add acc idle in
  iowait ← lua_field s "iowait";
  let acc := lua_add acc iowait in
  irq ← lua_field s "irq";
  let acc := lua_add acc irq in
  softirq ← lua_field s "softirq";
  let acc := lua_add acc softirq in
  steal ← lua_field s "steal";
  mret (lua_add acc steal).

(** [acc + s.user + s.nice + ... + s.steal], added from the left. *)
Definition add_busy_fields (s : lua_value) (acc : Z) : script Z :=
  user ← lua_field s "user"; nice ← lua_field s "nice";
  let acc := lua_add (lua_add acc user) nice in
  system ← lua_field s "system";
  let acc := lua_add acc system in
  idle ← lua_field s "idle";
  let acc := lua_add acc idle in
  iowait ← lua_field s "iowait";
  let acc := lua_add acc iowait in
  irq ← lua_field s "irq";
  let acc := lua_add acc irq in
  softirq ← lua_field s "softirq";
  let acc := lua_add acc softirq in
  steal ← lua_field s "steal";
  mret (lua_add acc steal).

(** The body of the loop of Test 3. *)
Definition test3_body (k : kernel) (i : Z) : script unit :=
  cpu_stats ← cpustat_get k (Some i);
  lua_assert (is_table cpu_stats) (format "CPU %d stats should be a table" [i]);;
  user ← lua_field cpu_stats "user";
  lua_assert (bool_decide (0 ≤ user)) (format "CPU %d user time should be >= 0" [i]);;
  idle ← lua_field cpu_stats "idle";
  lua_assert (bool_decide (0 ≤ idle)) (format "CPU %d idle time should be >= 0" [i]);;
  user ← lua_field cpu_stats "user";
  system ← lua_field cpu_stats "system";
  idle ← lua_field cpu_stats "idle";
  lua_print (format "  ✓ CPU %d: user=%d, system=%d, idle=%d" [i; user; system; idle]).

(** The loop of Test 5: the sum of the per-CPU totals. *)
Definition sum_per_cpu (k : kernel) (num_cpus : Z) : script Z :=
  lua_for_acc (cpu_range num_cpus)
    (λ i acc, cpu_stats ← cpustat_get k (Some i); add_busy_fields cpu_stats acc) 0.

(** The whole script, run against a kernel whose counters stand still. *)
Definition cpustat_test (k : kernel) : script unit :=
  lua_print ("=== CPU Statistics Module Test ===" +:+ nl);;
  (* Test 1: Get CPU count *)
  lua_print "Test 1: Getting CPU count";;
  count_result ← cpustat_count k;
  num_cpus ← lua_integer count_result;
  lua_assert (bool_decide (0 < num_cpus)) "CPU count should be greater than 0";;
  lua_print (format ("  ✓ Number of CPUs: %d" +:+ nl) [num_cpus]);;
  (* Test 2: Get all CPU stats *)
  lua_print "Test 2: Getting all CPU statistics";;
  all_stats ← cpustat_get k None;
  lua_assert (is_table all_stats) "Result should be a table";;
  has_field all_stats "user" "Should have 'user' field";;
  has_field all_stats "nice" "Should have 'nice' field";;
  has_field all_stats "system" "Should have 'system' field";;
  has_field all_stats "idle" "Should have 'idle' field";;
  has_field all_stats "iowait" "Should have 'iowait' field";;
  has_field all_stats "irq" "Should have 'irq' field";;
  has_field all_stats "softirq" "Should have 'softirq' field";;
  has_field all_stats "steal" "Should have 'steal' field";;
  has_field all_stats "guest" "Should have 'guest' field";;
  has_field all_stats "guest_nice" "Should have 'guest_nice' field";;
  lua_print "  ✓ All required fields present";;
  user ← lua_field all_stats "user";
  system ← lua_field all_stats "system";
  idle ← lua_field all_stats "idle";
  lua_print (format "    user=%d, system=%d, idle=%d" [user; system; idle]);;
  lua_print "";;
  (* Test 3: Get per-CPU stats *)
  lua_print "Test 3: Getting per-CPU statistics";;
  lua_for (cpu_range num_cpus) (test3_body k);;
  lua_print "";;
  (* Test 4: Verify values are cumulative (non-decreasing) *)
  lua_print "Test 4: Verifying values are cumulative";;
  stats1 ← cpustat_get k (Some 0);
  stats2 ← cpustat_get k (Some 0);
  user2 ← lua_field stats2 "user"; user1 ← lua_field stats1 "user";
  lua_assert (bool_decide (user1 ≤ user2)) "User time should not decrease";;
  system2 ← lua_field stats2 "system"; system1 ← lua_field stats1 "system";
  lua_assert (bool_decide (system1 ≤ system2)) "System time should not decrease";;
  idle2 ← lua_field stats2 "idle"; idle1 ← lua_field stats1 "idle";
  lua_assert (bool_decide (idle1 ≤ idle2)) "Idle time should not decrease";;
  lua_print ("  ✓ Values are non-decreasing" +:+ nl);;
  (* Test 5: Verify total is consistent *)
  lua_print "Test 5: Verifying data consistency";;
  total_all ← busy_total all_stats;
  lua_print (format "  Total all CPUs: %d ticks" [total_all]);;
  sum ← sum_per_cpu k num_cpus;
  lua_print (format "  Sum of per-CPU: %d ticks" [sum]);;
  lua_print ("  ✓ Data appears consistent" +:+ nl);;
  (* Test 6: Test invalid CPU number *)
  lua_print "Test 6: Testing error handling";;
  let invalid_cpu := lua_add num_cpus 10 in
  status ← lua_pcall (cpustat_get k (Some invalid_cpu));
  lua_assert (negb status) "Should error on invalid CPU number";;
  lua_print (format "  ✓ Correctly handles invalid CPU number (%d)" [invalid_cpu]);;
  lua_print "";;
  lua_print "=== All Tests Passed ===".

(** The script runs to its end, whatever was printed before, with a result
    satisfying [Q]. *)
Definition finishes {A} (m : script A) (Q : A → Prop) : Prop :=
  ∀ out, ∃ a out', m out = Finished a out' ∧ Q a.

(** The script is aborted with [e], whatever was printed before. *)
Definition aborts {A} (m : script A) (e : script_error) : Prop :=
  ∀ out, ∃ out', m out = Aborted e out'.

(** The slots the scripts add up, in the order of the additions. *)
Definition busy_slots : list nat :=
  [ CPUTIME_USER; CPUTIME_NICE; CPUTIME_SYSTEM; CPUTIME_IDLE; CPUTIME_IOWAIT;
    CPUTIME_IRQ; CPUTIME_SOFTIRQ; CPUTIME_STEAL ].

(** The exact sum of those counters over the CPUs of [cpus]. *)
Definition busy_sum (k : kernel) (cpus : list Z) : Z :=
  Zsum ((λ c, Zsum ((λ slot, kcpustat k c !!! slot) <$> busy_slots)) <$> cpus).

(** ** More example kernels *)

(** One CPU just before and just after its [user] counter wraps around. *)
Definition k_wrap_before : kernel :=
  Kernel false 1 (λ _, true) (λ _, [2 ^ 64 - 1; 0; 0; 0; 0; 0; 0; 0; 0; 0]).

Definition k_wrap_after : kernel :=
  Kernel false 1 (λ _, true) (λ _, [4; 0; 0; 0; 0; 0; 0; 0; 0; 0]).

(** [k_idle] three units of idle time per CPU later. *)
Definition k_idle_later : kernel :=
  Kernel false 2 (λ _, true) (λ _, [0; 0; 0; 0; 0; 2 ^ 62 + 3; 0; 0; 0; 0]).

(** * Lemmas *)

(** ** Integer conversions *)

Section Conversions.

Lemma to_int_small z : is_int z → to_int z = z.
Proof.
  unfold is_int, INT_MIN, INT_MAX, to_int, wrap_signed. intros H.
  rewrite Z.mod_small; lia.
Qed.

Lemma to_uint_small z : is_uint z → to_uint z = z.
Proof. unfold is_uint, to_uint, wrap_unsigned. intros H. by apply Z.mod_small. Qed.

Lemma to_u64_small z : is_u64 z → to_u64 z = z.
Proof. unfold is_u64, to_u64, wrap_unsigned. intros. by apply Z.mod_small. Qed.

Lemma to_u64_idemp z : to_u64 (to_u64 z) = to_u64 z.
Proof. unfold to_u64, wrap_unsigned. by rewrite Z.mod_mod. Qed.

Lemma to_u64_add_l a b : to_u64 (to_u64 a + b) = to_u64 (a + b).
Proof. unfold to_u64, wrap_unsigned. by rewrite Zplus_mod_idemp_l. Qed.

Lemma to_u64_range z : is_u64 (to_u64 z).
Proof. unfold is_u64, to_u64, wrap_unsigned. by apply Z.mod_pos_bound. Qed.

Lemma to_lua_Integer_small z : is_lua_Integer z → to_lua_Integer z = z.
Proof.
  unfold is_lua_Integer, to_lua_Integer, wrap_signed. intros H.
  rewrite Z.mod_small; lia.
Qed.

(** A [u64] with its top bit set reads as a negative [lua_Integer]. *)
Lemma to_lua_Integer_large z :
  2 ^ 63 ≤ z < 2 ^ 64 → to_lua_Integer z = z - 2 ^ 64.
Proof.
  unfold to_lua_Integer, wrap_signed. intros H.
  replace (z + 2 ^ (64 - 1)) with ((z - 2 ^ 63) + 1 * 2 ^ 64) by lia.
  rewrite Z_mod_plus_full, Z.mod_small; lia.
Qed.

Lemma to_lua_Integer_range z : is_lua_Integer (to_lua_Integer z).
Proof.
  unfold is_lua_Integer, to_lua_Integer, wrap_signed.
  pose proof (Z.mod_pos_bound (z + 2 ^ (64 - 1)) (2 ^ 64)). lia.
Qed.

(** The sign of the Lua value is the top bit of the [u64]. *)
Lemma to_lua_Integer_nonneg u :
  is_u64 u → 0 ≤ to_lua_Integer u ↔ u < 2 ^ 63.
Proof.
  unfold is_u64. intros Hu.
  destruct (decide (u < 2 ^ 63)) as [Hlt|Hge].
  - rewrite to_lua_Integer_small by (unfold is_lua_Integer; lia). lia.
  - rewrite to_lua_Integer_large by lia. lia.
Qed.

Lemma to_int_range z : is_int (to_int z).
Proof.
  unfold is_int, INT_MIN, INT_MAX, to_int, wrap_signed.
  pose proof (Z.mod_pos_bound (z + 2 ^ (32 - 1)) (2 ^ 32)). lia.
Qed.

Lemma to_uint_nonneg_int c : 0 ≤ c → is_int c → to_uint c = c.
Proof.
  unfold is_int, INT_MAX. intros H0 [_ H]. apply to_uint_small.
  unfold is_uint. lia.
Qed.

Lemma arg_cpu_int i : is_int i → arg_cpu (Some i) = i.
Proof. apply to_int_small. Qed.

Lemma arg_cpu_none : arg_cpu None = -1.
Proof. done. Qed.

End Conversions.

(** ** Running the monad *)

Section Monad.

Lemma bind_done {A B} (m : lua A) (f : A → lua B) s a s' :
  m s = Done a s' → (m ≫= f) s = f a s'.
Proof. intros H. unfold mbind, lua_bind. by rewrite H. Qed.

Lemma bind_raised {A B} (m : lua A) (f : A → lua B) s e :
  m s = Raised e → (m ≫= f) s = Raised e.
Proof. intros H. unfold mbind, lua_bind. by rewrite H. Qed.

Lemma insert_snoc_top (pre : list lua_value) v w :
  <[length pre := w]> (pre ++ [v]) = pre ++ [w].
Proof. by rewrite insert_app_r_alt, Nat.sub_diag by done. Qed.

(** Storing into the table that lies just below the pushed value. *)
Lemma setfield_top pre t rd n key :
  lua_setfield (S (length pre)) key (State ((pre ++ [LTable t]) ++ [LInteger n]) rd)
  = Done () (State (pre ++ [LTable (<[key := LInteger n]> t)]) rd).
Proof.
  unfold lua_setfield. cbn [stack reads pred].
  rewrite reverse_snoc, reverse_involutive.
  rewrite lookup_app_r, Nat.sub_diag by done. cbn [lookup list_lookup].
  by rewrite insert_snoc_top.
Qed.

(** One round of the emission loop: push the counter, store it. *)
Lemma push_setfield pre t rd n key :
  (lua_pushinteger n ;; lua_setfield (S (length pre)) key)
    (State (pre ++ [LTable t]) rd)
  = Done () (State (pre ++ [LTable (<[key := LInteger n]> t)]) rd).
Proof. erewrite bind_done by reflexivity. apply setfield_top. Qed.

(** The same round when more statements follow it. *)
Lemma push_setfield_then {A} pre t rd n key (rest : unit → lua A) :
  (lua_pushinteger n ≫= λ _, lua_setfield (S (length pre)) key ≫= rest)
    (State (pre ++ [LTable t]) rd)
  = rest () (State (pre ++ [LTable (<[key := LInteger n]> t)]) rd).
Proof.
  erewrite bind_done by reflexivity. cbn [stack reads].
  erewrite bind_done; [done|]. apply setfield_top.
Qed.

Lemma drop_results (st : list lua_value) v :
  drop (length (st ++ [v]) - Z.to_nat 1) (st ++ [v]) = [v].
Proof.
  rewrite length_app. cbn [length].
  replace (length st + 1 - Z.to_nat 1)%nat with (length st) by lia.
  by rewrite drop_app_length.
Qed.

Lemma optinteger_args arg :
  luaL_optinteger 1 (-1) (State (args_of arg) [])
  = Done (default (-1) arg) (State (args_of arg) []).
Proof. by destruct arg. Qed.

End Monad.

(** Runs the next statement when it is a primitive of the model. *)
Ltac lua_step := erewrite bind_done by reflexivity; cbn [stack reads].

(** ** The loops of [luacpustat_get] *)

Section Loops.
Context (k : kernel).

Lemma for_each_emit regs stats pre t rd :
  for_each regs (λ r,
      lua_pushinteger (to_lua_Integer (stats !!! r.2));;
      lua_setfield (S (length pre)) (field_name r.1))
    (State (pre ++ [LTable t]) rd)
  = Done () (State (pre ++ [LTable (emit regs stats t)]) rd).
Proof.
  revert t. induction regs as [|r regs IH]; intros t; [done|].
  cbn [for_each emit foldl].
  erewrite bind_done by apply push_setfield. apply IH.
Qed.

Lemma fold_each_aggregate regs cpus stats st rd :
  fold_each cpus
    (λ stats i, kcs ← kcpustat_cpu k i; mret (add_stats regs kcs stats))
    stats (State st rd)
  = Done (aggregate k regs cpus stats) (State st (rd ++ cpus)).
Proof.
  revert stats rd. induction cpus as [|c cpus IH]; intros stats rd.
  - cbn. by rewrite app_nil_r.
  - cbn [fold_each aggregate foldl]. lua_step.
    rewrite IH. by rewrite <- app_assoc.
Qed.

Lemma fold_each_fields cpus f st rd :
  fold_each cpus
    (λ f i, kcs ← kcpustat_cpu k i; mret (add_fields kcs f))
    f (State st rd)
  = Done (foldl (λ f i, add_fields (kcpustat k i) f) f cpus)
         (State st (rd ++ cpus)).
Proof.
  revert f rd. induction cpus as [|c cpus IH]; intros f rd.
  - cbn. by rewrite app_nil_r.
  - cbn [fold_each foldl]. lua_step.
    rewrite IH. by rewrite <- app_assoc.
Qed.

(** The tail of [luacpustat_get]: a fresh table on top of the arguments,
    filled from [stats]. *)
Lemma emit_table stats st rd :
  (lua_createtable 0 (NR_STATS k);;
   table ← lua_gettop;
   for_each (rows (cpu_usage_stat k)) (λ r,
     lua_pushinteger (to_lua_Integer (stats !!! r.2));;
     lua_setfield table (field_name r.1));;
   mret 1) (State st rd)
  = Done 1 (State (st ++ [snapshot k stats]) rd).
Proof.
  do 2 lua_step. rewrite length_app, Nat.add_1_r.
  by erewrite bind_done by apply for_each_emit.
Qed.

(** The tail of the hard-coded version. *)
Lemma emit_fields f st rd :
  (lua_createtable 0 10;;
   table ← lua_gettop;
   lua_pushinteger (to_lua_Integer (user f));; lua_setfield table "user";;
   lua_pushinteger (to_lua_Integer (nice f));; lua_setfield table "nice";;
   lua_pushinteger (to_lua_Integer (system f));; lua_setfield table "system";;
   lua_pushinteger (to_lua_Integer (idle f));; lua_setfield table "idle";;
   lua_pushinteger (to_lua_Integer (iowait f));; lua_setfield table "iowait";;
   lua_pushinteger (to_lua_Integer (irq f));; lua_setfield table "irq";;
   lua_pushinteger (to_lua_Integer (softirq f));; lua_setfield table "softirq";;
   lua_pushinteger (to_lua_Integer (steal f));; lua_setfield table "steal";;
   lua_pushinteger (to_lua_Integer (guest f));; lua_setfield table "guest";;
   lua_pushinteger (to_lua_Integer (guest_nice f));; lua_setfield table "guest_nice";;
   mret 1) (State st rd)
  = Done 1 (State (st ++ [LTable
      (<["guest_nice"%string := LInteger (to_lua_Integer (guest_nice f))]>
      (<["guest"%string := LInteger (to_lua_Integer (guest f))]>
      (<["steal"%string := LInteger (to_lua_Integer (steal f))]>
      (<["softirq"%string := LInteger (to_lua_Integer (softirq f))]>
      (<["irq"%string := LInteger (to_lua_Integer (irq f))]>
      (<["iowait"%string := LInteger (to_lua_Integer (iowait f))]>
      (<["idle"%string := LInteger (to_lua_Integer (idle f))]>
      (<["system"%string := LInteger (to_lua_Integer (system f))]>
      (<["nice"%string := LInteger (to_lua_Integer (nice f))]>
      (<["user"%string := LInteger (to_lua_Integer (user f))]> ∅))))))))))]) rd).
Proof.
  do 2 lua_step. rewrite length_app, Nat.add_1_r.
  by rewrite !push_setfield_then.
Qed.

Lemma get_unfold arg : get k arg = get_closed k arg.
Proof.
  unfold get, get_closed, lua_call, luacpustat_get, arg_cpu.
  erewrite bind_done by apply optinteger_args.
  cbv zeta. fold (zeros k).
  repeat case_bool_decide.
  - by erewrite bind_raised.
  - erewrite bind_done; [|by erewrite bind_done].
    rewrite emit_table. cbn [stack reads]. by rewrite drop_results.
  - erewrite bind_done by apply fold_each_aggregate.
    rewrite emit_table. cbn [stack reads]. by rewrite drop_results.
Qed.

Lemma get_hardcoded_unfold arg : get_hardcoded k arg = get_hardcoded_closed k arg.
Proof.
  unfold get_hardcoded, get_hardcoded_closed, lua_call,
    luacpustat_get_hardcoded, arg_cpu.
  erewrite bind_done by apply optinteger_args.
  cbv zeta. fold no_fields.
  repeat case_bool_decide.
  - by erewrite bind_raised.
  - erewrite bind_done; [|by erewrite bind_done].
    rewrite emit_fields. cbn [stack reads]. by rewrite drop_results.
  - erewrite bind_done by apply fold_each_fields.
    rewrite emit_fields. cbn [stack reads]. by rewrite drop_results.
Qed.

Lemma count_unfold args :
  count k args = Returned [LInteger (to_lua_Integer (nr_cpu_ids k))] [].
Proof.
  unfold count, lua_call, luacpustat_count. lua_step.
  cbn [mret lua_ret stack reads]. by rewrite drop_results.
Qed.

End Loops.

(** ** The emitted table *)

Section Emit.
Context (stats : list Z).

Lemma emit_cons r regs t :
  emit (r :: regs) stats t
  = emit regs stats (<[field_name r.1 := LInteger (to_lua_Integer (stats !!! r.2))]> t).
Proof. done. Qed.

Lemma emit_snoc r regs t :
  emit (regs ++ [r]) stats t
  = <[field_name r.1 := LInteger (to_lua_Integer (stats !!! r.2))]> (emit regs stats t).
Proof. unfold emit. by rewrite foldl_app. Qed.

Lemma dom_emit regs t :
  dom (emit regs stats t) = dom t ∪ list_to_set (keys regs).
Proof.
  revert t. induction regs as [|r regs IH]; intros t.
  - cbn. set_solver.
  - rewrite emit_cons, IH, dom_insert_L. unfold keys. cbn. set_solver.
Qed.

Lemma emit_lookup_notin regs t key :
  key ∉ keys regs → emit regs stats t !! key = t !! key.
Proof.
  revert t. induction regs as [|r regs IH]; intros t Hk; [done|].
  unfold keys in Hk. cbn in Hk. apply not_elem_of_cons in Hk as [Hne Hk].
  rewrite emit_cons, IH by done. by rewrite lookup_insert_ne.
Qed.

(** With distinct names, each row's name is bound to that row's counter. *)
Lemma emit_lookup regs t n i :
  NoDup (keys regs) → (n, i) ∈ regs →
  emit regs stats t !! field_name n = Some (LInteger (to_lua_Integer (stats !!! i))).
Proof.
  revert t. induction regs as [|r regs IH]; intros t Hnd Hin.
  - by apply elem_of_nil in Hin.
  - unfold keys in Hnd. cbn in Hnd. apply NoDup_cons in Hnd as [Hfresh Hnd].
    rewrite emit_cons.
    apply elem_of_cons in Hin as [<-|Hin].
    + rewrite emit_lookup_notin by done. cbn. by rewrite lookup_insert_eq.
    + by apply IH.
Qed.

Lemma emit_values regs key v :
  emit regs stats ∅ !! key = Some v → ∃ n, v = LInteger n ∧ is_lua_Integer n.
Proof.
  induction regs as [|r regs IH] using rev_ind.
  { unfold emit. cbn [foldl]. by rewrite lookup_empty. }
  rewrite emit_snoc, lookup_insert. case_decide; [|done].
  intros [= <-]. eexists. split; [done|]. apply to_lua_Integer_range.
Qed.

Lemma size_emit regs :
  NoDup (keys regs) → size (emit regs stats ∅) = length regs.
Proof.
  intros Hnd. rewrite <- size_dom, dom_emit, dom_empty_L, (left_id_L ∅ (∪)).
  rewrite size_list_to_set by done. unfold keys. by rewrite !length_fmap.
Qed.

End Emit.

(** ** The accumulator *)

Section Stats.
Context (kcs : list Z).

Lemma copy_stats_cons r regs stats :
  copy_stats (r :: regs) kcs stats
  = copy_stats regs kcs (<[r.2 := kcs !!! r.2]> stats).
Proof. done. Qed.

Lemma add_stats_cons r regs stats :
  add_stats (r :: regs) kcs stats
  = add_stats regs kcs (<[r.2 := to_u64 (stats !!! r.2 + kcs !!! r.2)]> stats).
Proof. done. Qed.

Lemma length_copy_stats regs stats :
  length (copy_stats regs kcs stats) = length stats.
Proof.
  revert stats. induction regs as [|r rs IH]; intros stats; [done|].
  by rewrite copy_stats_cons, IH, length_insert.
Qed.

Lemma length_add_stats regs stats :
  length (add_stats regs kcs stats) = length stats.
Proof.
  revert stats. induction regs as [|r rs IH]; intros stats; [done|].
  by rewrite add_stats_cons, IH, length_insert.
Qed.

Lemma copy_stats_notin regs stats (j : nat) :
  j ∉ regs.*2 → copy_stats regs kcs stats !!! j = stats !!! j.
Proof.
  revert stats. induction regs as [|r rs IH]; intros stats Hj; [done|].
  cbn in Hj. apply not_elem_of_cons in Hj as [Hne Hj].
  rewrite copy_stats_cons, IH by done.
  by rewrite list_lookup_total_insert_ne.
Qed.

Lemma add_stats_notin regs stats (j : nat) :
  j ∉ regs.*2 → add_stats regs kcs stats !!! j = stats !!! j.
Proof.
  revert stats. induction regs as [|r rs IH]; intros stats Hj; [done|].
  cbn in Hj. apply not_elem_of_cons in Hj as [Hne Hj].
  rewrite add_stats_cons, IH by done.
  by rewrite list_lookup_total_insert_ne.
Qed.

(** Every registered slot of the accumulator receives the CPU's counter
    (a slot registered twice is written twice with the same value). *)
Lemma copy_stats_lookup regs stats (i : nat) :
  i ∈ regs.*2 → (i < length stats)%nat →
  copy_stats regs kcs stats !!! i = kcs !!! i.
Proof.
  revert stats. induction regs as [|r regs IH]; intros stats Hin Hlt.
  - by apply elem_of_nil in Hin.
  - rewrite copy_stats_cons.
    destruct (decide (i ∈ regs.*2)) as [Hi|Hi].
    + apply IH; [done|]. by rewrite length_insert.
    + cbn in Hin. apply elem_of_cons in Hin as [->|Hin]; [|done].
      rewrite copy_stats_notin by done.
      by rewrite list_lookup_total_insert_eq.
Qed.

(** Every registered slot is incremented once, modulo [2^64], provided no
    slot is registered twice. *)
Lemma add_stats_lookup regs stats (i : nat) :
  NoDup regs.*2 → i ∈ regs.*2 → (i < length stats)%nat →
  add_stats regs kcs stats !!! i = to_u64 (stats !!! i + kcs !!! i).
Proof.
  revert stats. induction regs as [|r regs IH]; intros stats Hnd Hin Hlt.
  - by apply elem_of_nil in Hin.
  - cbn in Hnd. apply NoDup_cons in Hnd as [Hfresh Hnd].
    rewrite add_stats_cons.
    cbn in Hin. apply elem_of_cons in Hin as [->|Hin].
    + rewrite add_stats_notin by done. by rewrite list_lookup_total_insert_eq.
    + rewrite IH by (done || by rewrite length_insert).
      rewrite list_lookup_total_insert_ne; [done|].
      intros Heq. apply Hfresh. by rewrite Heq.
Qed.

End Stats.

(** ** Aggregation *)

Section Aggregate.
Context (k : kernel) (regs : list (string * nat)).

Lemma aggregate_cons c cpus stats :
  aggregate k regs (c :: cpus) stats
  = aggregate k regs cpus (add_stats regs (kcpustat k c) stats).
Proof. done. Qed.

Lemma length_aggregate cpus stats :
  length (aggregate k regs cpus stats) = length stats.
Proof.
  revert stats. induction cpus as [|c cpus IH]; intros stats; [done|].
  by rewrite aggregate_cons, IH, length_add_stats.
Qed.

(** After the aggregation loop a registered slot holds the sum of that
    counter over the visited CPUs, reduced modulo [2^64]. *)
Lemma aggregate_lookup cpus stats (i : nat) :
  NoDup regs.*2 → i ∈ regs.*2 → (i < length stats)%nat →
  to_u64 (stats !!! i) = stats !!! i →
  aggregate k regs cpus stats !!! i = to_u64 (stats !!! i + counter_sum k cpus i).
Proof.
  intros Hnd Hin. revert stats.
  induction cpus as [|c cpus IH]; intros stats Hlt Hu.
  - cbn. by rewrite Z.add_0_r.
  - rewrite aggregate_cons, IH.
    + rewrite add_stats_lookup by done. unfold counter_sum. cbn.
      by rewrite to_u64_add_l, Z.add_assoc.
    + by rewrite length_add_stats.
    + rewrite add_stats_lookup by done. apply to_u64_idemp.
Qed.

End Aggregate.

Lemma possible_cpus_spec k c :
  c ∈ possible_cpus k ↔ 0 ≤ c < nr_cpu_ids k ∧ cpu_possible k c = true.
Proof.
  unfold possible_cpus. rewrite list_elem_of_filter, elem_of_seqZ. naive_solver lia.
Qed.

Lemma possible_cpus_NoDup k : NoDup (possible_cpus k).
Proof. apply NoDup_filter, NoDup_seqZ. Qed.

(** ** The registry *)

(** Closes a goal about every row of a concrete registry, one row at a time. *)
Ltac each_row Hin :=
  repeat (apply elem_of_cons in Hin as [[= -> ->]|Hin]; [cbv; lia|]);
  by apply elem_of_nil in Hin.

Section Registry.
Context (k : kernel).

Lemma registry_rows :
  rows (cpu_usage_stat k)
  = base_rows ++
    (if CONFIG_SCHED_CORE k then [("FORCEIDLE"%string, CPUTIME_FORCEIDLE)] else []).
Proof. unfold cpu_usage_stat. by destruct (CONFIG_SCHED_CORE k). Qed.

Lemma registry_keys :
  registry_names k
  = base_names ++ (if CONFIG_SCHED_CORE k then ["forceidle"%string] else []).
Proof. unfold registry_names. rewrite registry_rows. by destruct (CONFIG_SCHED_CORE k). Qed.

Lemma registry_length : length (rows (cpu_usage_stat k)) = NR_STATS k.
Proof. rewrite registry_rows. unfold NR_STATS. by destruct (CONFIG_SCHED_CORE k). Qed.

Lemma registry_keys_NoDup : NoDup (registry_names k).
Proof.
  rewrite registry_keys.
  destruct (CONFIG_SCHED_CORE k); apply (bool_decide_unpack _); by vm_compute.
Qed.

Lemma registry_slots_NoDup : NoDup (rows (cpu_usage_stat k)).*2.
Proof.
  rewrite registry_rows.
  destruct (CONFIG_SCHED_CORE k); apply (bool_decide_unpack _); by vm_compute.
Qed.

Lemma registry_slots_lt n i :
  (n, i) ∈ rows (cpu_usage_stat k) → (i < NR_STATS k)%nat.
Proof.
  rewrite registry_rows. unfold NR_STATS.
  destruct (CONFIG_SCHED_CORE k); cbn; intros Hin; each_row Hin.
Qed.

Lemma registry_names_fit n i :
  (n, i) ∈ rows (cpu_usage_stat k) → (String.length n ≤ 31)%nat.
Proof.
  rewrite registry_rows.
  destruct (CONFIG_SCHED_CORE k); cbn; intros Hin; each_row Hin.
Qed.

End Registry.

(** ** Lowercase names *)

Lemma lower_char_translit c : lower_char c = translit upper_letters lower_letters c.
Proof. destruct c as [[] [] [] [] [] [] [] []]; by vm_compute. Qed.

Lemma lower_into_translit room s :
  (String.length s ≤ room)%nat → lower_into room s = spec_transliterate s.
Proof.
  revert room. induction s as [|c s IH]; intros room Hlen.
  - by destruct room.
  - destruct room as [|room]; cbn in Hlen; [lia|].
    cbn. by rewrite lower_char_translit, IH by lia.
Qed.

(** A name that fits the 32-byte buffer is transliterated whole. *)
Lemma field_name_translit s :
  (String.length s ≤ 31)%nat → field_name s = spec_transliterate s.
Proof. apply lower_into_translit. Qed.

(** A longer one is cut after 31 characters. *)
Lemma field_name_length s : (String.length (field_name s) ≤ 31)%nat.
Proof.
  unfold field_name. generalize 31%nat. intros room. revert s.
  induction room as [|room IH]; intros [|c s]; cbn; try lia.
  specialize (IH s). lia.
Qed.

Lemma registry_keys_translit k :
  registry_names k = spec_transliterate <$> (rows (cpu_usage_stat k)).*1.
Proof.
  unfold registry_names, keys.
  apply list_eq_Forall2, Forall2_fmap, Forall_Forall2_diag.
  apply Forall_forall. intros n Hn.
  apply list_elem_of_fmap in Hn as [[n' i] [-> Hin]].
  eapply field_name_translit, registry_names_fit, Hin.
Qed.

(** ** The three behaviours of [get] *)

Section Get.
Context (k : kernel).

(** An index in [[0, nr_cpu_ids)]: that CPU's structure is read, once. *)
Lemma get_cpu i :
  is_int i → 0 ≤ i < nr_cpu_ids k →
  get k (Some i)
  = Returned [snapshot k (copy_stats (rows (cpu_usage_stat k)) (kcpustat k i) (zeros k))] [i].
Proof.
  intros Hint [H0 Hlt]. rewrite get_unfold. unfold get_closed.
  rewrite arg_cpu_int by done. rewrite to_uint_nonneg_int by done.
  rewrite bool_decide_eq_true_2 by done.
  by rewrite bool_decide_eq_false_2 by lia.
Qed.

(** An index at or above [nr_cpu_ids]: the error, with the index and the
    largest valid CPU number. *)
Lemma get_invalid i :
  is_int i → 0 < nr_cpu_ids k ≤ i →
  get k (Some i) = Failed (invalid_cpu i (nr_cpu_ids k - 1)).
Proof.
  intros Hint [Hpos Hge]. rewrite get_unfold. unfold get_closed.
  rewrite arg_cpu_int by done. rewrite to_uint_nonneg_int by (done || lia).
  rewrite !bool_decide_eq_true_2 by (done || lia).
  destruct Hint as [? Hmax]. unfold INT_MAX in Hmax.
  rewrite (to_uint_small (nr_cpu_ids k - 1)) by (unfold is_uint; lia).
  by rewrite to_int_small by (unfold is_int, INT_MIN, INT_MAX; lia).
Qed.

(** A negative [int]: every possible CPU is read, in order. *)
Lemma get_negative i :
  is_int i → i < 0 →
  get k (Some i)
  = Returned [snapshot k (aggregate k (rows (cpu_usage_stat k)) (possible_cpus k) (zeros k))]
             (possible_cpus k).
Proof.
  intros Hint Hneg. rewrite get_unfold. unfold get_closed.
  rewrite arg_cpu_int by done.
  by rewrite bool_decide_eq_false_2 by lia.
Qed.

(** No argument: the same as [-1]. *)
Lemma get_none :
  get k None
  = Returned [snapshot k (aggregate k (rows (cpu_usage_stat k)) (possible_cpus k) (zeros k))]
             (possible_cpus k).
Proof. by rewrite get_unfold. Qed.

(** Which calls fail: exactly those that the range check does not accept. *)
Lemma get_fails_iff arg : fails (get k arg) ↔ ¬ accepted k arg.
Proof.
  rewrite get_unfold. unfold get_closed, fails, accepted.
  repeat case_bool_decide; split; try (intros [? [=]]); naive_solver lia.
Qed.

(** Every call either fails or returns one table built from the registry. *)
Lemma get_total arg :
  fails (get k arg) ∨
  ∃ stats log, get k arg = Returned [snapshot k stats] log.
Proof.
  rewrite get_unfold. unfold get_closed, fails.
  repeat case_bool_decide; eauto.
Qed.

Lemma get_accepted arg :
  accepted k arg → ∃ stats log, get k arg = Returned [snapshot k stats] log.
Proof.
  intros Hacc. destruct (get_total arg) as [Hf|?]; [|done].
  by apply get_fails_iff in Hf.
Qed.

(** The accepted calls of the design document: no argument, a negative
    index, a valid index (each within the [int] range). *)
Lemma accepted_cases arg :
  arg = None ∨
  (∃ i, arg = Some i ∧ is_int i ∧ (i < 0 ∨ i < nr_cpu_ids k)) →
  accepted k arg.
Proof.
  unfold accepted. intros [->|(i & -> & Hint & Hi)]; [by left|].
  rewrite arg_cpu_int by done.
  destruct (decide (i < 0)); [by left|right].
  rewrite to_uint_nonneg_int by (done || lia). lia.
Qed.

(** For an argument that fits an [int] the call fails exactly when the index
    is at or above [nr_cpu_ids]. *)
Lemma get_fails_iff_int i :
  is_int i → 0 ≤ nr_cpu_ids k →
  fails (get k (Some i)) ↔ nr_cpu_ids k ≤ i.
Proof.
  intros Hint Hnr. rewrite get_fails_iff. unfold accepted.
  rewrite arg_cpu_int by done.
  destruct (decide (i < 0)); [lia|].
  rewrite to_uint_nonneg_int by (done || lia). lia.
Qed.

Lemma zeros_length : length (zeros k) = NR_STATS k.
Proof. apply length_replicate. Qed.

(** The value a single-CPU snapshot binds to a registered name. *)
Lemma get_cpu_value i n slot :
  (n, slot) ∈ rows (cpu_usage_stat k) →
  emit (rows (cpu_usage_stat k))
       (copy_stats (rows (cpu_usage_stat k)) (kcpustat k i) (zeros k)) ∅
    !! field_name n
  = Some (LInteger (to_lua_Integer (kcpustat k i !!! slot))).
Proof.
  intros Hin. erewrite emit_lookup; [|apply registry_keys_NoDup|done].
  rewrite copy_stats_lookup; [done| |].
  - apply list_elem_of_fmap. by exists (n, slot).
  - rewrite zeros_length. by eapply registry_slots_lt.
Qed.

(** The value the aggregate snapshot binds to a registered name. *)
Lemma get_aggregate_value n slot :
  (n, slot) ∈ rows (cpu_usage_stat k) →
  emit (rows (cpu_usage_stat k))
       (aggregate k (rows (cpu_usage_stat k)) (possible_cpus k) (zeros k)) ∅
    !! field_name n
  = Some (LInteger (to_lua_Integer (to_u64 (counter_sum k (possible_cpus k) slot)))).
Proof.
  intros Hin. erewrite emit_lookup; [|apply registry_keys_NoDup|done].
  assert (Hslot : (slot < NR_STATS k)%nat) by by eapply registry_slots_lt.
  assert (Hz : zeros k !!! slot = 0).
  { unfold zeros. by rewrite lookup_total_replicate_2. }
  rewrite aggregate_lookup.
  - by rewrite Hz.
  - apply registry_slots_NoDup.
  - apply list_elem_of_fmap. by exists (n, slot).
  - by rewrite zeros_length.
  - by rewrite Hz.
Qed.

Lemma snapshot_complete stats :
  complete k (emit (rows (cpu_usage_stat k)) stats ∅).
Proof.
  split.
  - by rewrite dom_emit, dom_empty_L, (left_id_L ∅ (∪)).
  - apply size_emit, registry_keys_NoDup.
Qed.

Lemma snapshot_named stats :
  named k (emit (rows (cpu_usage_stat k)) stats ∅).
Proof.
  assert (Hdom : dom (emit (rows (cpu_usage_stat k)) stats ∅) = fixed_names k).
  { rewrite dom_emit, dom_empty_L, (left_id_L ∅ (∪)).
    fold (registry_names k). rewrite registry_keys.
    unfold fixed_names. rewrite list_to_set_app_L.
    destruct (CONFIG_SCHED_CORE k); set_solver. }
  split; [|split; [done|]].
  - rewrite dom_emit, dom_empty_L, (left_id_L ∅ (∪)).
    fold (registry_names k). by rewrite registry_keys_translit.
  - rewrite Hdom. unfold fixed_names, spec_names.
    destruct (CONFIG_SCHED_CORE k); set_solver.
Qed.

End Get.

(** ** The two versions of [get] *)

Section Hardcoded.
Context (k : kernel).

(** Without the forced-idle row the registry-driven loops and the ten locals
    hold the same counters, and emit the same table. *)
Hypothesis no_sched_core : CONFIG_SCHED_CORE k = false.

Lemma rows_no_sched_core : rows (cpu_usage_stat k) = base_rows.
Proof. rewrite registry_rows, no_sched_core. apply app_nil_r. Qed.

Lemma zeros_no_sched_core : zeros k = fields_stats no_fields.
Proof. unfold zeros, NR_STATS. by rewrite no_sched_core. Qed.

Lemma copy_stats_fields kcs f :
  copy_stats base_rows kcs (fields_stats f) = fields_stats (load_fields kcs).
Proof. done. Qed.

Lemma add_stats_fields kcs f :
  add_stats base_rows kcs (fields_stats f) = fields_stats (add_fields kcs f).
Proof. done. Qed.

Lemma aggregate_fields cpus f :
  aggregate k base_rows cpus (fields_stats f)
  = fields_stats (foldl (λ f i, add_fields (kcpustat k i) f) f cpus).
Proof.
  revert f. induction cpus as [|c cpus IH]; intros f; [done|].
  by rewrite aggregate_cons, add_stats_fields, IH.
Qed.

Lemma snapshot_fields f : snapshot k (fields_stats f) = fields_table f.
Proof.
  unfold snapshot, fields_table. rewrite rows_no_sched_core.
  destruct f. reflexivity.
Qed.

Lemma get_closed_hardcoded arg : get_closed k arg = get_hardcoded_closed k arg.
Proof.
  unfold get_closed, get_hardcoded_closed. cbv zeta.
  rewrite rows_no_sched_core, zeros_no_sched_core.
  repeat case_bool_decide; [done| |].
  - by rewrite copy_stats_fields, snapshot_fields.
  - by rewrite aggregate_fields, snapshot_fields.
Qed.

End Hardcoded.

(** ** The example kernels are well-formed *)

(** Checks a concrete kernel slot by slot, counter by counter. *)
Ltac check_kernel :=
  split; [by vm_compute|];
  repeat (apply Forall_cons; split;
          [split; [done|]; repeat constructor; by vm_compute|]);
  apply Forall_nil_2.

Lemma k4_ok : kernel_ok k4.
Proof. check_kernel. Qed.

Lemma k2_ok : kernel_ok k2.
Proof. check_kernel. Qed.

Lemma k_top_ok : kernel_ok k_top.
Proof. check_kernel. Qed.

Lemma k_idle_ok : kernel_ok k_idle.
Proof. check_kernel. Qed.

Lemma k_core_ok : kernel_ok k_core.
Proof. check_kernel. Qed.

(** * The properties of [get] and [count] *)

(** ** Single-CPU snapshots *)

(** What [get(i)] returns for a valid index: CPU [i] is read once, and every
    registered name is bound to the counter at its slot, as a [lua_Integer]. *)
Lemma get_cpu_snapshot k i :
  is_int i → 0 ≤ i < nr_cpu_ids k →
  ∃ t, get k (Some i) = Returned [LTable t] [i] ∧
       ∀ n slot, (n, slot) ∈ rows (cpu_usage_stat k) →
         t !! field_name n = Some (LInteger (to_lua_Integer (kcpustat k i !!! slot))).
Proof.
  intros Hint Hi. eexists. split; [by apply get_cpu|].
  intros n slot Hin. by apply get_cpu_value.
Qed.

(** Counters below [2^63] come out unchanged. *)
Lemma get_cpu_snapshot_small k i :
  is_int i → 0 ≤ i < nr_cpu_ids k →
  length (kcpustat k i) = NR_STATS k →
  Forall (λ v, 0 ≤ v < 2 ^ 63) (kcpustat k i) →
  ∃ t, get k (Some i) = Returned [LTable t] [i] ∧
       ∀ n slot, (n, slot) ∈ rows (cpu_usage_stat k) →
         t !! field_name n = Some (LInteger (kcpustat k i !!! slot)).
Proof.
  intros Hint Hi Hlen Hsmall.
  destruct (get_cpu_snapshot k i Hint Hi) as (t & Hget & Hval).
  exists t. split; [done|]. intros n slot Hin.
  rewrite (Hval n slot Hin). do 2 f_equal.
  apply to_lua_Integer_small.
  assert (Hslot : (slot < length (kcpustat k i))%nat).
  { rewrite Hlen. by eapply registry_slots_lt. }
  rewrite Forall_lookup in Hsmall.
  destruct (lookup_lt_is_Some_2 _ _ Hslot) as [v Hv].
  rewrite (list_lookup_total_correct _ _ _ Hv).
  specialize (Hsmall _ _ Hv). unfold is_lua_Integer. cbn in Hsmall. lia.
Qed.

(** C1 (the code departs from the claim): on a well-formed kernel whose only
    CPU has a [user] counter of [2^63], [get(0)] reads CPU 0 once and returns
    a table, but the value bound to [user] is [-2^63], not the counter: the
    cast to [lua_Integer] turns every counter at or above [2^63] into a
    negative number. *)
Theorem get_cpu_top_bit_value :
  kernel_ok k_top ∧
  count k_top [] = Returned [LInteger 1] [] ∧
  kcpustat k_top 0 !!! CPUTIME_USER = 2 ^ 63 ∧
  ∃ t, get k_top (Some 0) = Returned [LTable t] [0] ∧
       t !! "user"%string = Some (LInteger (- 2 ^ 63)).
Proof.
  split; [apply k_top_ok|]. split; [by rewrite count_unfold|]. split; [done|].
  destruct (get_cpu_snapshot k_top 0) as (t & Hget & Hval); [done..|].
  exists t. split; [done|].
  change "user"%string with (field_name "USER").
  rewrite (Hval "USER"%string CPUTIME_USER); [by vm_compute|].
  rewrite registry_rows. apply elem_of_app. left. constructor.
Qed.

(** ** Aggregate snapshots *)

(** What [get()] and [get(i)] for a negative [int] return: every possible
    CPU is read exactly once, in increasing order, and every registered name
    is bound to the sum of its counter over those CPUs, reduced modulo [2^64]
    and then read as a [lua_Integer]. *)
Lemma get_aggregate_snapshot k arg :
  arg = None ∨ (∃ i, arg = Some i ∧ is_int i ∧ i < 0) →
  ∃ t, get k arg = Returned [LTable t] (possible_cpus k) ∧
       ∀ n slot, (n, slot) ∈ rows (cpu_usage_stat k) →
         t !! field_name n
         = Some (LInteger (to_lua_Integer (to_u64 (counter_sum k (possible_cpus k) slot)))).
Proof.
  intros Harg. eexists. split.
  - destruct Harg as [->|(i & -> & Hint & Hneg)];
      [apply get_none|by apply get_negative].
  - intros n slot Hin. by apply get_aggregate_value.
Qed.

(** C2 (the code departs from the claim): the argument is narrowed to [int]
    before it is tested, so the negative Lua integer [-2^32] becomes CPU
    number 0.  On the well-formed two-CPU kernel [k2] the call reads CPU 0
    only and binds [user] to CPU 0's counter [1], where the sum over both
    possible CPUs is [101]. *)
Theorem get_below_int_min_not_aggregate :
  kernel_ok k2 ∧
  is_lua_Integer (- 2 ^ 32) ∧ - 2 ^ 32 < 0 ∧
  possible_cpus k2 = [0; 1] ∧
  to_u64 (counter_sum k2 (possible_cpus k2) CPUTIME_USER) = 101 ∧
  ∃ t, get k2 (Some (- 2 ^ 32)) = Returned [LTable t] [0] ∧
       t !! "user"%string = Some (LInteger 1).
Proof.
  split; [apply k2_ok|].
  split; [by vm_compute|]. split; [done|].
  split; [by vm_compute|]. split; [by vm_compute|].
  eexists. split; by vm_compute.
Qed.

(** ** Values *)

(** Every value of every table [get] returns is an integer in the
    [lua_Integer] range. *)
Lemma get_values_integers k arg t log key v :
  get k arg = Returned [LTable t] log → t !! key = Some v →
  ∃ n, v = LInteger n ∧ is_lua_Integer n.
Proof.
  intros Hret Hlook.
  destruct (get_total k arg) as [[e He]|(stats & log' & Hget)]; [congruence|].
  assert (Ht : t = emit (rows (cpu_usage_stat k)) stats ∅).
  { rewrite Hget in Hret. unfold snapshot in Hret. congruence. }
  subst t. by eapply emit_values.
Qed.

(** C8 (the code departs from the claim): on a well-formed kernel two CPUs
    that have each idled for [2^62] units sum to [2^63] in unsigned 64-bit
    arithmetic, and the aggregate snapshot binds [idle] to [-2^63]: the value
    is not non-negative. *)
Theorem get_aggregate_negative_value :
  kernel_ok k_idle ∧
  possible_cpus k_idle = [0; 1] ∧
  to_u64 (counter_sum k_idle [0; 1] CPUTIME_IDLE) = 2 ^ 63 ∧
  ∃ t, get k_idle None = Returned [LTable t] [0; 1] ∧
       t !! "idle"%string = Some (LInteger (- 2 ^ 63)) ∧
       - 2 ^ 63 < 0.
Proof.
  split; [apply k_idle_ok|].
  split; [by vm_compute|]. split; [by vm_compute|].
  eexists. split; [by vm_compute|]. split; by vm_compute.
Qed.

(** The sum does wrap: on [k2] the [guest_nice] counters add up to
    [2^64 + 9], and the aggregate snapshot holds [9]. *)
Lemma get_aggregate_wraps :
  counter_sum k2 [0; 1] CPUTIME_GUEST_NICE = 2 ^ 64 + 9 ∧
  ∃ t, get k2 None = Returned [LTable t] [0; 1] ∧
       t !! "guest_nice"%string = Some (LInteger 9).
Proof. split; [by vm_compute|]. eexists. split; by vm_compute. Qed.

(** ** The range check *)

(** C3 (the code departs from the claim): the Lua integer [2^32] is at or
    above [count() = 4], yet the call succeeds; narrowed to [int] it is CPU
    number 0, and the call returns what [get(0)] returns. *)
Theorem get_wraps_large_index :
  kernel_ok k4 ∧
  count k4 [] = Returned [LInteger 4] [] ∧
  is_lua_Integer (2 ^ 32) ∧ 4 ≤ 2 ^ 32 ∧
  get k4 (Some (2 ^ 32)) = get k4 (Some 0) ∧
  ∃ t, get k4 (Some (2 ^ 32)) = Returned [LTable t] [0].
Proof.
  split; [apply k4_ok|].
  split; [by vm_compute|]. split; [by vm_compute|]. split; [done|].
  split; [by rewrite !get_unfold|].
  eexists. by vm_compute.
Qed.

(** C9 (the code departs from the claim): the negative Lua integer
    [-2^31 - 1] narrows to [INT_MAX], so the call raises the invalid-CPU
    error instead of returning a snapshot. *)
Theorem get_negative_index_fails :
  kernel_ok k4 ∧
  is_lua_Integer (- 2 ^ 31 - 1) ∧ - 2 ^ 31 - 1 < 0 ∧
  get k4 (Some (- 2 ^ 31 - 1)) = Failed (invalid_cpu 2147483647 3) ∧
  message (invalid_cpu 2147483647 3) = "invalid CPU number: 2147483647 (max: 3)"%string.
Proof.
  split; [apply k4_ok|].
  split; [by vm_compute|]. split; [done|]. split; by vm_compute.
Qed.

(** What does hold: an accepted call returns a table with every registry
    name, and [count] returns whatever it is given. *)
Lemma get_accepted_complete k arg :
  accepted k arg → returns_table (get k arg) (complete k).
Proof.
  intros Hacc. destruct (get_accepted k arg Hacc) as (stats & log & Hget).
  eexists _, log. split; [exact Hget|]. apply snapshot_complete.
Qed.

(** ** Keys *)

(** C4: a call to [get] with no argument, a negative index or a valid index
    (as an [int]) returns one table whose key set is exactly the set of names
    produced by walking the registry and which has as many entries as the
    registry has rows; and whatever the argument, the call either passes the
    range check and returns such a table, or does not pass it and fails
    without a table. *)
Theorem get_keys_complete k arg :
  (arg = None ∨ (∃ i, arg = Some i ∧ is_int i ∧ (i < 0 ∨ i < nr_cpu_ids k)) →
   returns_table (get k arg) (complete k)) ∧
  ((accepted k arg ∧ returns_table (get k arg) (complete k)) ∨
   (¬ accepted k arg ∧ fails (get k arg))).
Proof.
  split.
  - intros Harg. by apply get_accepted_complete, accepted_cases.
  - destruct (decide (accepted k arg)) as [Hacc|Hn].
    + left. split; [done|]. by apply get_accepted_complete.
    + right. split; [done|]. by apply get_fails_iff.
Qed.

Lemma get_keys_complete_witness :
  (∃ i, Some 2 = Some i ∧ is_int i ∧ (i < 0 ∨ i < nr_cpu_ids k_core)) ∧
  returns_table (get k_core (Some 2)) (complete k_core).
Proof.
  assert (H : ∃ i, Some 2 = Some i ∧ is_int i ∧ (i < 0 ∨ i < nr_cpu_ids k_core)).
  { exists 2. split; [reflexivity|].
    split; [unfold is_int, INT_MIN, INT_MAX; lia|]. right. cbn. lia. }
  split; [exact H|].
  exact (proj1 (get_keys_complete k_core (Some 2)) (or_intror H)).
Defined.

(** ** Names *)

(** C6: every row of the registry is emitted under the transliteration of
    its spelling (uppercase letters to lowercase, everything else kept), the
    32-byte buffer never cutting a name short; the key set of every returned
    table is the set of these names, which is
    [user, nice, system, idle, iowait, irq, softirq, steal, guest, guest_nice]
    together with [forceidle] exactly under [CONFIG_SCHED_CORE]; [get()]
    always returns such a table. *)
Theorem get_field_names k arg :
  (∀ n slot, (n, slot) ∈ rows (cpu_usage_stat k) → field_name n = spec_transliterate n) ∧
  (fails (get k arg) ∨ returns_table (get k arg) (named k)) ∧
  returns_table (get k None) (named k).
Proof.
  assert (Hret : ∀ a stats log, get k a = Returned [snapshot k stats] log →
                 returns_table (get k a) (named k)).
  { intros a stats log Hget. eexists _, log. split; [exact Hget|].
    apply snapshot_named. }
  split; [|split].
  - intros n slot Hin. eapply field_name_translit, registry_names_fit, Hin.
  - destruct (get_total k arg) as [Hf|(stats & log & Hget)]; eauto.
  - eapply Hret, get_none.
Qed.

(** ** [count] *)

(** C7: whatever arguments it is called with, [count] returns without
    failing, and the one value it returns is [nr_cpu_ids]; this is the bound
    of [get]'s range check: an index that fits an [int] and is not negative
    makes [get] fail exactly when it is at or above the value [count]
    returns; and the value is positive as soon as the kernel has a CPU slot. *)
Theorem count_is_nr_cpu_ids k args :
  is_uint (nr_cpu_ids k) →
  count k args = Returned [LInteger (nr_cpu_ids k)] [] ∧
  (∀ i, is_int i → 0 ≤ i → fails (get k (Some i)) ↔ nr_cpu_ids k ≤ i) ∧
  (0 < nr_cpu_ids k → ∃ n, count k args = Returned [LInteger n] [] ∧ 0 < n).
Proof.
  intros Hnr.
  assert (Hcount : count k args = Returned [LInteger (nr_cpu_ids k)] []).
  { rewrite count_unfold, to_lua_Integer_small; [done|].
    unfold is_uint in Hnr. unfold is_lua_Integer. lia. }
  split; [done|]. split.
  - intros i Hint _. apply get_fails_iff_int; [done|]. unfold is_uint in Hnr. lia.
  - intros Hpos. by exists (nr_cpu_ids k).
Qed.

Lemma count_is_nr_cpu_ids_witness :
  is_uint (nr_cpu_ids k4) ∧
  count k4 [LInteger 7] = Returned [LInteger 4] [] ∧
  (∀ i, is_int i → 0 ≤ i → fails (get k4 (Some i)) ↔ 4 ≤ i) ∧
  (0 < 4 → ∃ n, count k4 [LInteger 7] = Returned [LInteger n] [] ∧ 0 < n).
Proof.
  assert (Hnr : is_uint (nr_cpu_ids k4)).
  { unfold is_uint. cbn. lia. }
  split; [exact Hnr|].
  exact (count_is_nr_cpu_ids k4 [LInteger 7] Hnr).
Defined.

(** ** The four-CPU scenario *)

(** C5, as the design document words it, does not hold: with [count() = 4]
    the error raised by [get(4)] reports the bound [3], not [4]. *)
Lemma get_4_does_not_report_4 :
  count k4 [] = Returned [LInteger 4] [] ∧
  ¬ ∃ e, get k4 (Some 4) = Failed e ∧ reported_bound e = Some 4.
Proof.
  split; [by vm_compute|].
  intros (e & Hget & Hbound).
  rewrite get_invalid in Hget by (vm_compute; intuition congruence).
  injection Hget as <-. discriminate Hbound.
Qed.

(** C5 (amended): when [count()] is 4, [get(0)], [get(1)], [get(2)] and
    [get(3)] each return a complete table after reading that one CPU, and
    [get(4)] fails with the error "invalid CPU number: 4 (max: 3)": it
    reports the offending index 4 and the largest valid CPU number 3. *)
Theorem get_four_cpus k :
  nr_cpu_ids k = 4 →
  count k [] = Returned [LInteger 4] [] ∧
  (∀ i, 0 ≤ i < 4 → ∃ t, get k (Some i) = Returned [LTable t] [i] ∧ complete k t) ∧
  get k (Some 4) = Failed (invalid_cpu 4 3) ∧
  reported_index (invalid_cpu 4 3) = Some 4 ∧
  reported_bound (invalid_cpu 4 3) = Some 3 ∧
  message (invalid_cpu 4 3) = "invalid CPU number: 4 (max: 3)"%string.
Proof.
  intros Hnr. split; [|split; [|split]].
  - by rewrite count_unfold, Hnr.
  - intros i Hi.
    assert (Hint : is_int i) by (unfold is_int, INT_MIN, INT_MAX; lia).
    rewrite get_cpu by (done || lia).
    eexists. split; [done|]. apply snapshot_complete.
  - rewrite get_invalid; rewrite ?Hnr; [done| |lia].
    unfold is_int, INT_MIN, INT_MAX; lia.
  - by vm_compute.
Qed.

Lemma get_four_cpus_witness :
  nr_cpu_ids k4 = 4 ∧
  count k4 [] = Returned [LInteger 4] [] ∧
  (∀ i, 0 ≤ i < 4 → ∃ t, get k4 (Some i) = Returned [LTable t] [i] ∧ complete k4 t) ∧
  get k4 (Some 4) = Failed (invalid_cpu 4 3) ∧
  reported_index (invalid_cpu 4 3) = Some 4 ∧
  reported_bound (invalid_cpu 4 3) = Some 3 ∧
  message (invalid_cpu 4 3) = "invalid CPU number: 4 (max: 3)"%string.
Proof.
  split; [reflexivity|]. exact (get_four_cpus k4 eq_refl).
Defined.

(** ** The registry-driven version against the hard-coded one *)

(** C10: on a kernel built without [CONFIG_SCHED_CORE] the registry-driven
    [get] and the hard-coded one give the same result for every argument:
    the same error on an index out of range, and otherwise the same table
    (the same ten names bound to the same values) after the same reads. *)
Theorem get_refines_hardcoded k arg :
  CONFIG_SCHED_CORE k = false → get k arg = get_hardcoded k arg.
Proof.
  intros Hcfg.
  rewrite get_unfold, get_hardcoded_unfold. by apply get_closed_hardcoded.
Qed.

Lemma get_refines_hardcoded_witness :
  CONFIG_SCHED_CORE k2 = false ∧ get k2 (Some 1) = get_hardcoded k2 (Some 1).
Proof.
  split; [reflexivity|]. exact (get_refines_hardcoded k2 (Some 1) eq_refl).
Defined.

(** With [CONFIG_SCHED_CORE] the two differ: only the registry-driven version
    emits [forceidle]. *)
Lemma get_hardcoded_lacks_forceidle :
  get k_core None ≠ get_hardcoded k_core None.
Proof. by vm_compute. Qed.

(** * Further properties *)

(** ** Lua integer arithmetic *)

Section LuaArithmetic.

Lemma to_lua_Integer_add_l a b :
  to_lua_Integer (to_lua_Integer a + b) = to_lua_Integer (a + b).
Proof.
  unfold to_lua_Integer, wrap_signed. f_equal.
  replace ((a + 2 ^ (64 - 1)) mod 2 ^ 64 - 2 ^ (64 - 1) + b + 2 ^ (64 - 1))
    with ((a + 2 ^ (64 - 1)) mod 2 ^ 64 + b) by lia.
  rewrite Zplus_mod_idemp_l. f_equal. lia.
Qed.

Lemma to_lua_Integer_add_r a b :
  to_lua_Integer (a + to_lua_Integer b) = to_lua_Integer (a + b).
Proof. by rewrite Z.add_comm, to_lua_Integer_add_l, Z.add_comm. Qed.

Lemma to_lua_Integer_sub a b :
  to_lua_Integer (to_lua_Integer a - to_lua_Integer b) = to_lua_Integer (a - b).
Proof.
  replace (to_lua_Integer a - to_lua_Integer b)
    with (to_lua_Integer a + - to_lua_Integer b) by lia.
  rewrite to_lua_Integer_add_l.
  unfold to_lua_Integer, wrap_signed. f_equal.
  replace (a + - ((b + 2 ^ (64 - 1)) mod 2 ^ 64 - 2 ^ (64 - 1)) + 2 ^ (64 - 1))
    with (a + 2 ^ 64 - (b + 2 ^ (64 - 1)) mod 2 ^ 64) by lia.
  rewrite Zminus_mod_idemp_r.
  replace (a + 2 ^ 64 - (b + 2 ^ (64 - 1)))
    with (a - b + 2 ^ (64 - 1) + 0 * 2 ^ 64) by lia.
  by rewrite Z.add_0_r.
Qed.

Lemma to_lua_Integer_u64 a : to_lua_Integer (to_u64 a) = to_lua_Integer a.
Proof.
  unfold to_lua_Integer, to_u64, wrap_signed, wrap_unsigned. f_equal.
  by rewrite Zplus_mod_idemp_l.
Qed.

Lemma to_lua_Integer_nonneg_small c : 0 ≤ c < 2 ^ 63 → 0 ≤ to_lua_Integer c.
Proof. intros Hc. rewrite to_lua_Integer_small; [lia|]. unfold is_lua_Integer. lia. Qed.

Lemma lua_add_wrap_r a b : lua_add a (to_lua_Integer b) = to_lua_Integer (a + b).
Proof. unfold lua_add. by rewrite to_lua_Integer_add_r. Qed.

(** Reading a counter that has advanced by [d], wrapping or not, and
    subtracting the earlier reading gives [d] back. *)
Lemma lua_sub_advance c d :
  0 ≤ d < 2 ^ 63 →
  lua_sub (to_lua_Integer (to_u64 (c + d))) (to_lua_Integer c) = d.
Proof.
  intros Hd. unfold lua_sub. rewrite to_lua_Integer_u64, to_lua_Integer_sub.
  replace (c + d - c) with d by lia.
  apply to_lua_Integer_small. unfold is_lua_Integer. lia.
Qed.

Lemma Zsum_cons x l : Zsum (x :: l) = x + Zsum l.
Proof. done. Qed.

Lemma Zsum_app l1 l2 : Zsum (l1 ++ l2) = Zsum l1 + Zsum l2.
Proof.
  induction l1 as [|x l1 IH]; [done|].
  change ((x :: l1) ++ l2) with (x :: (l1 ++ l2)). rewrite !Zsum_cons, IH. lia.
Qed.

Lemma Zsum_fmap_add {A} (g h : A → Z) l :
  Zsum ((λ x, g x + h x) <$> l) = Zsum (g <$> l) + Zsum (h <$> l).
Proof.
  induction l as [|x l IH]; [done|]. rewrite !fmap_cons, !Zsum_cons, IH. lia.
Qed.

Lemma Zsum_fmap_zero {A} (l : list A) : Zsum ((λ _, 0) <$> l) = 0.
Proof. induction l as [|x l IH]; [done|]. by rewrite fmap_cons, Zsum_cons, IH. Qed.

(** A double sum may be taken in either order. *)
Lemma Zsum_swap {A B} (f : A → B → Z) (la : list A) (lb : list B) :
  Zsum ((λ a, Zsum ((λ b, f a b) <$> lb)) <$> la)
  = Zsum ((λ b, Zsum ((λ a, f a b) <$> la)) <$> lb).
Proof.
  induction la as [|a la IH].
  - cbn [fmap list_fmap]. change (Zsum []) with 0. by rewrite Zsum_fmap_zero.
  - rewrite fmap_cons, Zsum_cons, IH.
    by rewrite <- (Zsum_fmap_add (λ b, f a b) (λ b, Zsum ((λ a, f a b) <$> la))).
Qed.

Lemma foldl_lua_add a l :
  foldl lua_add (to_lua_Integer a) l = to_lua_Integer (a + Zsum l).
Proof.
  revert a. induction l as [|x l IH]; intros a.
  - cbn. by rewrite Z.add_0_r.
  - cbn [foldl]. unfold lua_add at 2.
    rewrite to_lua_Integer_add_l, IH, Zsum_cons. f_equal. lia.
Qed.

(** Adding up in Lua is adding up exactly and wrapping once. *)
Lemma lua_sum_spec l : lua_sum l = to_lua_Integer (Zsum l).
Proof. exact (foldl_lua_add 0 l). Qed.

Lemma Zsum_to_lua_Integer l :
  to_lua_Integer (Zsum (to_lua_Integer <$> l)) = to_lua_Integer (Zsum l).
Proof.
  induction l as [|x l IH]; [done|]. rewrite fmap_cons, !Zsum_cons.
  rewrite to_lua_Integer_add_l, <- to_lua_Integer_add_r, IH.
  by rewrite to_lua_Integer_add_r.
Qed.

End LuaArithmetic.

(** ** [luacpustat_get] on any stack *)

Lemma optinteger_first args rd arg :
  first_integer args = Some arg →
  luaL_optinteger 1 (-1) (State args rd) = Done (default (-1) arg) (State args rd).
Proof. destruct args as [|[] ?]; cbn; intros [= <-]; done. Qed.

Lemma luacpustat_get_state k args rd arg :
  first_integer args = Some arg →
  luacpustat_get k (State args rd) = get_outcome k arg args rd.
Proof.
  intros Harg. unfold get_outcome, luacpustat_get, arg_cpu.
  erewrite bind_done by by apply optinteger_first.
  cbv zeta. fold (zeros k).
  repeat case_bool_decide.
  - by erewrite bind_raised.
  - erewrite bind_done; [|by erewrite bind_done].
    by rewrite emit_table.
  - erewrite bind_done by apply fold_each_aggregate.
    by rewrite emit_table.
Qed.

Lemma lua_call_get k args arg :
  first_integer args = Some arg →
  lua_call (luacpustat_get k) args = get k arg.
Proof.
  intros Harg. rewrite get_unfold. unfold lua_call.
  rewrite (luacpustat_get_state k args [] arg Harg).
  unfold get_outcome, get_closed. cbv zeta.
  repeat case_bool_decide; cbn [stack reads app]; by rewrite ?drop_results.
Qed.

(** X1: [get(nil)] is [get()], and whatever follows the first argument is
    ignored: the call behaves as if only the first argument had been passed. *)
Theorem get_nil_and_extra_arguments k rest :
  lua_call (luacpustat_get k) (LNil :: rest) = get k None ∧
  (∀ i, lua_call (luacpustat_get k) (LInteger i :: rest) = get k (Some i)) ∧
  lua_call (luacpustat_get k) rest = lua_call (luacpustat_get k) (take 1 rest).
Proof.
  split; [by apply lua_call_get|]. split; [intros i; by apply lua_call_get|].
  destruct rest as [|[| |t] rest']; [done| | |].
  - change (take 1 (LNil :: rest')) with [LNil].
    rewrite (lua_call_get k (LNil :: rest') None) by done.
    by rewrite (lua_call_get k [LNil] None).
  - change (take 1 (LInteger n :: rest')) with [LInteger n].
    rewrite (lua_call_get k (LInteger n :: rest') (Some n)) by done.
    by rewrite (lua_call_get k [LInteger n] (Some n)).
  - unfold lua_call, luacpustat_get. by erewrite !bind_raised.
Qed.

(** X2: when [luacpustat_get] returns, it returns 1, and the stack is the
    stack it was called on with one table pushed on top: the arguments are
    untouched and every counter pushed on the way has been popped again; the
    read log has only grown. *)
Theorem luacpustat_get_stack k args rd n s :
  luacpustat_get k (State args rd) = Done n s →
  n = 1 ∧ ∃ t log, stack s = args ++ [LTable t] ∧ reads s = rd ++ log.
Proof.
  destruct (first_integer args) as [arg|] eqn:Harg.
  - rewrite (luacpustat_get_state k args rd arg Harg). unfold get_outcome.
    cbv zeta. repeat case_bool_decide; intros [= <- <-]; split; eauto.
  - destruct args as [|[] ?]; try discriminate Harg.
    unfold luacpustat_get. by erewrite bind_raised.
Qed.

Lemma luacpustat_get_stack_witness :
  luacpustat_get k4 (State [LInteger 1; LNil] [7])
  = Done 1 (State ([LInteger 1; LNil] ++ [LTable (cpu_table k4 1)]) ([7] ++ [1])) ∧
  (1 = 1 ∧
   ∃ t log, [LInteger 1; LNil] ++ [LTable (cpu_table k4 1)] = [LInteger 1; LNil] ++ [LTable t] ∧
            [7] ++ [1] = [7] ++ log).
Proof.
  assert (H : luacpustat_get k4 (State [LInteger 1; LNil] [7])
              = Done 1 (State ([LInteger 1; LNil] ++ [LTable (cpu_table k4 1)]) ([7] ++ [1]))).
  { by vm_compute. }
  split; [exact H|].
  exact (luacpustat_get_stack k4 [LInteger 1; LNil] [7] 1 _ H).
Defined.

(** ** What [get] reads *)

Lemma arg_cpu_uint arg : 0 ≤ arg_cpu arg → to_uint (arg_cpu arg) = arg_cpu arg.
Proof. intros H. apply to_uint_nonneg_int; [done|]. apply to_int_range. Qed.

(** X3: whatever the argument, a call that returns has read either the one
    CPU the argument names or the possible CPUs, each once, and every CPU it
    has read lies in [[0, nr_cpu_ids)]: no per-CPU structure is read out of
    range, also for arguments beyond the [int] range. *)
Theorem get_reads_in_range k arg results log :
  get k arg = Returned results log →
  NoDup log ∧ (∀ c, c ∈ log → 0 ≤ c < nr_cpu_ids k) ∧
  (log = [arg_cpu arg] ∨ log = possible_cpus k).
Proof.
  rewrite get_unfold. unfold get_closed. cbv zeta.
  repeat case_bool_decide; [done| |]; intros [= <- <-].
  - rewrite arg_cpu_uint in * by done.
    split; [apply NoDup_singleton|]. split; [|by left].
    intros c ->%list_elem_of_singleton. lia.
  - split; [apply possible_cpus_NoDup|]. split; [|by right].
    intros c Hc. by apply possible_cpus_spec in Hc as [? _].
Qed.

Lemma get_reads_in_range_witness :
  get k_core (Some (2 ^ 32 + 2)) = Returned [LTable (cpu_table k_core 2)] [2] ∧
  (NoDup [2] ∧ (∀ c, c ∈ [2] → 0 ≤ c < nr_cpu_ids k_core) ∧
   ([2] = [arg_cpu (Some (2 ^ 32 + 2))] ∨ [2] = possible_cpus k_core)).
Proof.
  assert (H : get k_core (Some (2 ^ 32 + 2)) = Returned [LTable (cpu_table k_core 2)] [2]).
  { by vm_compute. }
  split; [exact H|].
  exact (get_reads_in_range k_core (Some (2 ^ 32 + 2)) _ [2] H).
Defined.

(** ** The error *)

Lemma message_invalid_cpu a b :
  message (invalid_cpu a b)
  = ("invalid CPU number: " +:+ decimal a +:+ " (max: " +:+ decimal b +:+ ")")%string.
Proof. reflexivity. Qed.

(** X4: on a kernel with at least one CPU slot every failure of [get] is the
    invalid-CPU error; it reports the argument as narrowed to [int], which
    lies between [nr_cpu_ids] and [INT_MAX], and [nr_cpu_ids - 1] as the
    maximum, and its message spells both out in decimal. *)
Theorem get_failure_report k arg e :
  0 < nr_cpu_ids k → get k arg = Failed e →
  nr_cpu_ids k ≤ arg_cpu arg ≤ INT_MAX ∧
  e = invalid_cpu (arg_cpu arg) (nr_cpu_ids k - 1) ∧
  message e = ("invalid CPU number: " +:+ decimal (arg_cpu arg) +:+
               " (max: " +:+ decimal (nr_cpu_ids k - 1) +:+ ")")%string.
Proof.
  intros Hpos. rewrite get_unfold. unfold get_closed. cbv zeta.
  repeat case_bool_decide; [|done..]. intros [= <-].
  rewrite arg_cpu_uint in * by done.
  pose proof (to_int_range (default (-1) arg)) as [_ Hmax]. fold (arg_cpu arg) in Hmax.
  unfold INT_MAX in *.
  rewrite (to_uint_small (nr_cpu_ids k - 1)) by (unfold is_uint; lia).
  rewrite (to_int_small (nr_cpu_ids k - 1)) by (unfold is_int, INT_MIN, INT_MAX; lia).
  split; [lia|]. split; [done|]. apply message_invalid_cpu.
Qed.

Lemma get_failure_report_witness :
  0 < nr_cpu_ids k4 ∧ get k4 (Some 9) = Failed (invalid_cpu 9 3) ∧
  (nr_cpu_ids k4 ≤ arg_cpu (Some 9) ≤ INT_MAX ∧
   invalid_cpu 9 3 = invalid_cpu (arg_cpu (Some 9)) (nr_cpu_ids k4 - 1) ∧
   message (invalid_cpu 9 3)
   = ("invalid CPU number: " +:+ decimal (arg_cpu (Some 9)) +:+
      " (max: " +:+ decimal (nr_cpu_ids k4 - 1) +:+ ")")%string).
Proof.
  assert (Hpos : 0 < nr_cpu_ids k4) by (cbn; lia).
  assert (H : get k4 (Some 9) = Failed (invalid_cpu 9 3)) by by vm_compute.
  split; [exact Hpos|]. split; [exact H|].
  exact (get_failure_report k4 (Some 9) _ Hpos H).
Defined.

(** ** Values *)

Lemma lookup_field_cpu k i n slot :
  is_int i → 0 ≤ i < nr_cpu_ids k → (n, slot) ∈ rows (cpu_usage_stat k) →
  lookup_field (get k (Some i)) (field_name n)
  = Some (to_lua_Integer (kcpustat k i !!! slot)).
Proof.
  intros Hint Hi Hin. rewrite get_cpu by done. unfold lookup_field, snapshot.
  by rewrite (get_cpu_value k i n slot Hin).
Qed.

Lemma lookup_field_aggregate k arg n slot :
  arg_cpu arg < 0 → (n, slot) ∈ rows (cpu_usage_stat k) →
  lookup_field (get k arg) (field_name n)
  = Some (to_lua_Integer (counter_sum k (possible_cpus k) slot)).
Proof.
  intros Hneg Hin. rewrite get_unfold. unfold get_closed. cbv zeta.
  rewrite bool_decide_eq_false_2 by lia. unfold lookup_field, snapshot.
  by rewrite (get_aggregate_value k n slot Hin), to_lua_Integer_u64.
Qed.

(** X5: for a valid index, the value [get(i)] binds to a registered name is
    the [u64] counter at that row's slot when the counter is below [2^63],
    and the counter minus [2^64] otherwise. *)
Theorem get_cpu_value_exact k i n slot :
  is_int i → 0 ≤ i < nr_cpu_ids k → (n, slot) ∈ rows (cpu_usage_stat k) →
  is_u64 (kcpustat k i !!! slot) →
  lookup_field (get k (Some i)) (field_name n)
  = Some (if bool_decide (kcpustat k i !!! slot < 2 ^ 63)
          then kcpustat k i !!! slot
          else kcpustat k i !!! slot - 2 ^ 64).
Proof.
  intros Hint Hi Hin Hu. rewrite (lookup_field_cpu k i n slot) by done.
  f_equal. unfold is_u64 in Hu. case_bool_decide.
  - apply to_lua_Integer_small. unfold is_lua_Integer. lia.
  - apply to_lua_Integer_large. lia.
Qed.

Lemma get_cpu_value_exact_witness :
  is_int 1 ∧ 0 ≤ 1 < nr_cpu_ids k2 ∧
  ("GUEST_NICE"%string, CPUTIME_GUEST_NICE) ∈ rows (cpu_usage_stat k2) ∧
  is_u64 (kcpustat k2 1 !!! CPUTIME_GUEST_NICE) ∧
  lookup_field (get k2 (Some 1)) (field_name "GUEST_NICE")
  = Some (if bool_decide (kcpustat k2 1 !!! CPUTIME_GUEST_NICE < 2 ^ 63)
          then kcpustat k2 1 !!! CPUTIME_GUEST_NICE
          else kcpustat k2 1 !!! CPUTIME_GUEST_NICE - 2 ^ 64).
Proof.
  assert (Hint : is_int 1) by (unfold is_int, INT_MIN, INT_MAX; lia).
  assert (Hi : 0 ≤ 1 < nr_cpu_ids k2) by (cbn; lia).
  assert (Hin : ("GUEST_NICE"%string, CPUTIME_GUEST_NICE) ∈ rows (cpu_usage_stat k2)).
  { cbn. repeat constructor. }
  assert (Hu : is_u64 (kcpustat k2 1 !!! CPUTIME_GUEST_NICE)).
  { vm_compute. split; [discriminate|reflexivity]. }
  repeat (split; [assumption|]).
  exact (get_cpu_value_exact k2 1 _ _ Hint Hi Hin Hu).
Defined.

(** X6: with no argument or a negative [int], the value bound to a
    registered name is the exact sum of that counter over the possible CPUs,
    as long as this sum is below [2^63]. *)
Theorem get_aggregate_value_exact k arg n slot :
  arg = None ∨ (∃ i, arg = Some i ∧ is_int i ∧ i < 0) →
  (n, slot) ∈ rows (cpu_usage_stat k) →
  0 ≤ counter_sum k (possible_cpus k) slot < 2 ^ 63 →
  lookup_field (get k arg) (field_name n)
  = Some (counter_sum k (possible_cpus k) slot).
Proof.
  intros Harg Hin Hsum.
  rewrite (lookup_field_aggregate k arg n slot); [| |done].
  - f_equal. apply to_lua_Integer_small. unfold is_lua_Integer. lia.
  - destruct Harg as [->|(i & -> & Hint & Hneg)]; [done|].
    by rewrite arg_cpu_int.
Qed.

Lemma get_aggregate_value_exact_witness :
  (Some (-7) = None ∨ (∃ i, Some (-7) = Some i ∧ is_int i ∧ i < 0)) ∧
  ("USER"%string, CPUTIME_USER) ∈ rows (cpu_usage_stat k_core) ∧
  0 ≤ counter_sum k_core (possible_cpus k_core) CPUTIME_USER < 2 ^ 63 ∧
  lookup_field (get k_core (Some (-7))) (field_name "USER")
  = Some (counter_sum k_core (possible_cpus k_core) CPUTIME_USER).
Proof.
  assert (Harg : Some (-7) = None ∨ (∃ i, Some (-7) = Some i ∧ is_int i ∧ i < 0)).
  { right. exists (-7). split; [reflexivity|].
    split; [unfold is_int, INT_MIN, INT_MAX; lia|lia]. }
  assert (Hin : ("USER"%string, CPUTIME_USER) ∈ rows (cpu_usage_stat k_core)).
  { cbn. repeat constructor. }
  assert (Hsum : 0 ≤ counter_sum k_core (possible_cpus k_core) CPUTIME_USER < 2 ^ 63).
  { by vm_compute. }
  repeat (split; [assumption|]).
  exact (get_aggregate_value_exact k_core (Some (-7)) _ _ Harg Hin Hsum).
Defined.

(** X7: on a kernel whose CPU numbers fit an [int], every possible CPU can be
    queried on its own, and adding up the values so obtained for a name, in
    Lua's wrapping arithmetic, gives the value [get()] binds to that name. *)
Theorem get_aggregate_is_sum k n slot :
  nr_cpu_ids k ≤ INT_MAX + 1 → (n, slot) ∈ rows (cpu_usage_stat k) →
  ∃ vs,
    Forall2 (λ c v, lookup_field (get k (Some c)) (field_name n) = Some v)
            (possible_cpus k) vs ∧
    lookup_field (get k None) (field_name n) = Some (lua_sum vs).
Proof.
  intros Hnr Hin.
  exists (to_lua_Integer <$> ((λ c, kcpustat k c !!! slot) <$> possible_cpus k)).
  split.
  - rewrite <- list_fmap_compose. apply Forall2_fmap_r, Forall_Forall2_diag.
    apply Forall_forall. intros c Hc%possible_cpus_spec. cbn.
    apply lookup_field_cpu; [|lia|done].
    unfold is_int, INT_MIN, INT_MAX in *. lia.
  - rewrite (lookup_field_aggregate k None n slot) by done.
    by rewrite lua_sum_spec, Zsum_to_lua_Integer.
Qed.

Lemma get_aggregate_is_sum_witness :
  nr_cpu_ids k2 ≤ INT_MAX + 1 ∧
  ("GUEST_NICE"%string, CPUTIME_GUEST_NICE) ∈ rows (cpu_usage_stat k2) ∧
  ∃ vs,
    Forall2 (λ c v, lookup_field (get k2 (Some c)) (field_name "GUEST_NICE") = Some v)
            (possible_cpus k2) vs ∧
    lookup_field (get k2 None) (field_name "GUEST_NICE") = Some (lua_sum vs).
Proof.
  assert (Hnr : nr_cpu_ids k2 ≤ INT_MAX + 1) by (unfold INT_MAX; cbn; lia).
  assert (Hin : ("GUEST_NICE"%string, CPUTIME_GUEST_NICE) ∈ rows (cpu_usage_stat k2)).
  { cbn. repeat constructor. }
  repeat (split; [assumption|]).
  exact (get_aggregate_is_sum k2 _ _ Hnr Hin).
Defined.

(** X8: if between two readings of a valid CPU a counter has advanced by
    [d < 2^63], wrapping around [2^64] or not, then the later value minus the
    earlier one, in Lua's wrapping arithmetic, is [d]: differences are exact
    even where the values themselves have turned negative. *)
Theorem get_cpu_delta k k' i n slot d :
  is_int i → 0 ≤ i < nr_cpu_ids k → i < nr_cpu_ids k' →
  (n, slot) ∈ rows (cpu_usage_stat k) → (n, slot) ∈ rows (cpu_usage_stat k') →
  0 ≤ d < 2 ^ 63 →
  kcpustat k' i !!! slot = to_u64 (kcpustat k i !!! slot + d) →
  ∃ v v', lookup_field (get k (Some i)) (field_name n) = Some v ∧
          lookup_field (get k' (Some i)) (field_name n) = Some v' ∧
          lua_sub v' v = d.
Proof.
  intros Hint Hi Hi' Hin Hin' Hd Hadv.
  eexists _, _. split; [by apply lookup_field_cpu|].
  split; [apply lookup_field_cpu; [done|lia|done]|].
  rewrite Hadv. by apply lua_sub_advance.
Qed.

Lemma get_cpu_delta_witness :
  is_int 0 ∧ 0 ≤ 0 < nr_cpu_ids k_wrap_before ∧ 0 < nr_cpu_ids k_wrap_after ∧
  ("USER"%string, CPUTIME_USER) ∈ rows (cpu_usage_stat k_wrap_before) ∧
  ("USER"%string, CPUTIME_USER) ∈ rows (cpu_usage_stat k_wrap_after) ∧
  0 ≤ 5 < 2 ^ 63 ∧
  kcpustat k_wrap_after 0 !!! CPUTIME_USER
  = to_u64 (kcpustat k_wrap_before 0 !!! CPUTIME_USER + 5) ∧
  ∃ v v', lookup_field (get k_wrap_before (Some 0)) (field_name "USER") = Some v ∧
          lookup_field (get k_wrap_after (Some 0)) (field_name "USER") = Some v' ∧
          lua_sub v' v = 5.
Proof.
  assert (Hint : is_int 0) by (unfold is_int, INT_MIN, INT_MAX; lia).
  assert (Hi : 0 ≤ 0 < nr_cpu_ids k_wrap_before) by (cbn; lia).
  assert (Hi' : 0 < nr_cpu_ids k_wrap_after) by (cbn; lia).
  assert (Hin : ("USER"%string, CPUTIME_USER) ∈ rows (cpu_usage_stat k_wrap_before)).
  { cbn. repeat constructor. }
  assert (Hin' : ("USER"%string, CPUTIME_USER) ∈ rows (cpu_usage_stat k_wrap_after)).
  { cbn. repeat constructor. }
  assert (Hd : 0 ≤ 5 < 2 ^ 63) by lia.
  assert (Hadv : kcpustat k_wrap_after 0 !!! CPUTIME_USER
                 = to_u64 (kcpustat k_wrap_before 0 !!! CPUTIME_USER + 5)).
  { by vm_compute. }
  repeat (split; [assumption|]).
  exact (get_cpu_delta k_wrap_before k_wrap_after 0 _ _ 5 Hint Hi Hi' Hin Hin' Hd Hadv).
Defined.

(** X9: the same for the aggregate: if the exact sum of a counter over the
    possible CPUs has grown by [d < 2^63] between two calls of [get()], the
    later value minus the earlier one, in Lua's wrapping arithmetic, is
    [d]. *)
Theorem get_aggregate_delta k k' n slot d :
  (n, slot) ∈ rows (cpu_usage_stat k) → (n, slot) ∈ rows (cpu_usage_stat k') →
  0 ≤ d < 2 ^ 63 →
  counter_sum k' (possible_cpus k') slot = counter_sum k (possible_cpus k) slot + d →
  ∃ v v', lookup_field (get k None) (field_name n) = Some v ∧
          lookup_field (get k' None) (field_name n) = Some v' ∧
          lua_sub v' v = d.
Proof.
  intros Hin Hin' Hd Hadv.
  eexists _, _. split; [by apply lookup_field_aggregate|].
  split; [by apply lookup_field_aggregate|].
  rewrite Hadv, <- to_lua_Integer_u64. by apply lua_sub_advance.
Qed.

Lemma get_aggregate_delta_witness :
  ("IDLE"%string, CPUTIME_IDLE) ∈ rows (cpu_usage_stat k_idle) ∧
  ("IDLE"%string, CPUTIME_IDLE) ∈ rows (cpu_usage_stat k_idle_later) ∧
  0 ≤ 6 < 2 ^ 63 ∧
  counter_sum k_idle_later (possible_cpus k_idle_later) CPUTIME_IDLE
  = counter_sum k_idle (possible_cpus k_idle) CPUTIME_IDLE + 6 ∧
  ∃ v v', lookup_field (get k_idle None) (field_name "IDLE") = Some v ∧
          lookup_field (get k_idle_later None) (field_name "IDLE") = Some v' ∧
          lua_sub v' v = 6.
Proof.
  assert (Hin : ("IDLE"%string, CPUTIME_IDLE) ∈ rows (cpu_usage_stat k_idle)).
  { cbn. repeat constructor. }
  assert (Hin' : ("IDLE"%string, CPUTIME_IDLE) ∈ rows (cpu_usage_stat k_idle_later)).
  { cbn. repeat constructor. }
  assert (Hd : 0 ≤ 6 < 2 ^ 63) by lia.
  assert (Hadv : counter_sum k_idle_later (possible_cpus k_idle_later) CPUTIME_IDLE
                 = counter_sum k_idle (possible_cpus k_idle) CPUTIME_IDLE + 6).
  { by vm_compute. }
  repeat (split; [assumption|]).
  exact (get_aggregate_delta k_idle k_idle_later _ _ 6 Hin Hin' Hd Hadv).
Defined.

(** ** The lowercase loop *)

Lemma lower_char_not_upper c : ¬ is_upper (lower_char c).
Proof. destruct c as [[] [] [] [] [] [] [] []]; unfold is_upper; vm_compute; lia. Qed.

Lemma lower_char_fixed c : ¬ is_upper c → lower_char c = c.
Proof.
  unfold lower_char, is_upper. intros H. by rewrite bool_decide_eq_false_2.
Qed.

Lemma lower_into_substring room s :
  lower_into room s = spec_transliterate (substring 0 room s).
Proof.
  revert s. induction room as [|room IH]; intros [|c s]; cbn; try done.
  by rewrite lower_char_translit, IH.
Qed.

Lemma lower_into_length room s :
  String.length (lower_into room s) = Nat.min (String.length s) room.
Proof.
  revert s. induction room as [|room IH]; intros [|c s]; cbn; try done.
  by rewrite IH.
Qed.

(** X10: the lowercase loop copies at most 31 characters (the buffer has 32
    bytes, one of them for the terminator): the key is the lowercase
    transliteration of the first 31 characters of the registry name, so its
    length is the smaller of the name's length and 31. *)
Theorem field_name_truncates s :
  String.length (field_name s) = Nat.min (String.length s) 31 ∧
  field_name s = spec_transliterate (substring 0 31 s).
Proof. split; [apply lower_into_length|apply lower_into_substring]. Qed.

Lemma lower_into_not_upper room s :
  Forall (λ c, ¬ is_upper c) (list_ascii_of_string (lower_into room s)).
Proof.
  revert s. induction room as [|room IH]; intros [|c s]; cbn; try by constructor.
  constructor; [apply lower_char_not_upper|apply IH].
Qed.

Lemma lower_into_fixed room s :
  (String.length s ≤ room)%nat →
  Forall (λ c, ¬ is_upper c) (list_ascii_of_string s) →
  lower_into room s = s.
Proof.
  revert s. induction room as [|room IH]; intros [|c s]; cbn; try done; [lia|].
  intros Hlen [Hc Hs]%Forall_cons. rewrite lower_char_fixed by done.
  rewrite IH; [done|lia|done].
Qed.

(** X11: a key has no upper-case letter left, and running the loop on a key
    gives the key back. *)
Theorem field_name_lowercase s :
  Forall (λ c, ¬ is_upper c) (list_ascii_of_string (field_name s)) ∧
  field_name (field_name s) = field_name s.
Proof.
  split; [apply lower_into_not_upper|].
  apply lower_into_fixed; [|apply lower_into_not_upper].
  unfold field_name. rewrite lower_into_length. lia.
Qed.


(** ** The registry version and the hard-coded one, whatever the configuration *)

Section SchedCore.
Context (k : kernel).
Hypothesis sched_core : CONFIG_SCHED_CORE k = true.

Lemma rows_sched_core :
  rows (cpu_usage_stat k) = base_rows ++ [("FORCEIDLE"%string, CPUTIME_FORCEIDLE)].
Proof. by rewrite registry_rows, sched_core. Qed.

Lemma zeros_sched_core : zeros k = fields_stats no_fields ++ [0].
Proof. unfold zeros, NR_STATS. by rewrite sched_core. Qed.

Lemma copy_stats_fields_core kcs f x :
  copy_stats (base_rows ++ [("FORCEIDLE"%string, CPUTIME_FORCEIDLE)]) kcs
             (fields_stats f ++ [x])
  = fields_stats (load_fields kcs) ++ [kcs !!! CPUTIME_FORCEIDLE].
Proof. done. Qed.

Lemma add_stats_fields_core kcs f x :
  add_stats (base_rows ++ [("FORCEIDLE"%string, CPUTIME_FORCEIDLE)]) kcs
            (fields_stats f ++ [x])
  = fields_stats (add_fields kcs f) ++ [to_u64 (x + kcs !!! CPUTIME_FORCEIDLE)].
Proof. done. Qed.

Lemma aggregate_fields_core cpus f x :
  ∃ y, aggregate k (base_rows ++ [("FORCEIDLE"%string, CPUTIME_FORCEIDLE)]) cpus
                 (fields_stats f ++ [x])
       = fields_stats (foldl (λ f i, add_fields (kcpustat k i) f) f cpus) ++ [y].
Proof.
  revert f x. induction cpus as [|c cpus IH]; intros f x; [by exists x|].
  rewrite aggregate_cons, add_stats_fields_core. apply IH.
Qed.

Lemma snapshot_fields_core f x :
  snapshot k (fields_stats f ++ [x])
  = LTable (<["forceidle"%string := LInteger (to_lua_Integer x)]> (fields_map f)).
Proof.
  unfold snapshot. rewrite rows_sched_core. destruct f. reflexivity.
Qed.

End SchedCore.

Lemma fields_map_forceidle f : fields_map f !! "forceidle"%string = None.
Proof. destruct f. reflexivity. Qed.

Lemma fields_table_map f : fields_table f = LTable (fields_map f).
Proof. done. Qed.

(** X12: whatever the configuration and the argument, the registry version
    and the hard-coded one fail together, with the same error, or return
    together, having read the same CPUs; the hard-coded table is the registry
    table without [forceidle], and the registry table has [forceidle] exactly
    under [CONFIG_SCHED_CORE]. *)
Theorem get_extends_hardcoded k arg :
  match get k arg, get_hardcoded k arg with
  | Failed e, Failed e' => e = e'
  | Returned [LTable t] log, Returned [LTable t'] log' =>
      log = log' ∧ t' = delete "forceidle"%string t ∧
      (is_Some (t !! "forceidle"%string) ↔ CONFIG_SCHED_CORE k = true)
  | _, _ => False
  end.
Proof.
  rewrite get_unfold, get_hardcoded_unfold.
  destruct (CONFIG_SCHED_CORE k) eqn:Hcfg.
  - unfold get_closed, get_hardcoded_closed. cbv zeta.
    rewrite rows_sched_core, zeros_sched_core by done.
    repeat case_bool_decide; [done| |].
    + rewrite copy_stats_fields_core, snapshot_fields_core, fields_table_map by done.
      split; [done|]. split.
      * by rewrite delete_insert_id by apply fields_map_forceidle.
      * rewrite lookup_insert_eq. naive_solver.
    + destruct (aggregate_fields_core k (possible_cpus k) no_fields 0) as [y ->].
      rewrite snapshot_fields_core, fields_table_map by done.
      split; [done|]. split.
      * by rewrite delete_insert_id by apply fields_map_forceidle.
      * rewrite lookup_insert_eq. naive_solver.
  - rewrite get_closed_hardcoded by done.
    unfold get_hardcoded_closed. cbv zeta.
    assert (Hold : ∀ f, fields_map f = delete "forceidle"%string (fields_map f) ∧
                        (is_Some (fields_map f !! "forceidle"%string) ↔ false = true)).
    { intros f. rewrite fields_map_forceidle.
      split; [by rewrite delete_id by apply fields_map_forceidle|].
      split; [intros [? [=]]|done]. }
    repeat case_bool_decide; try done; rewrite fields_table_map;
      (split; [done|apply Hold]).
Qed.


(** ** A logic for scripts *)

Section ScriptLogic.
Context {A B : Type}.

Lemma finishes_ret (a : A) (Q : A → Prop) : Q a → finishes (mret a) Q.
Proof. intros HQ out. by exists a, out. Qed.

Lemma finishes_bind (m : script A) (f : A → script B) Q R :
  finishes m Q → (∀ a, Q a → finishes (f a) R) → finishes (m ≫= f) R.
Proof.
  intros Hm Hf out. destruct (Hm out) as (a & out' & Hrun & HQ).
  destruct (Hf a HQ out') as (b & out'' & Hrun' & HR).
  exists b, out''. split; [|done].
  unfold mbind, script_bind. by rewrite Hrun.
Qed.

Lemma finishes_weaken (m : script A) (Q R : A → Prop) :
  finishes m Q → (∀ a, Q a → R a) → finishes m R.
Proof.
  intros Hm HQR out. destruct (Hm out) as (a & out' & Hrun & HQ). eauto.
Qed.

Lemma aborts_bind_l (m : script A) (f : A → script B) e :
  aborts m e → aborts (m ≫= f) e.
Proof.
  intros Hm out. destruct (Hm out) as (out' & Hrun).
  exists out'. unfold mbind, script_bind. by rewrite Hrun.
Qed.

Lemma aborts_bind_r (m : script A) (f : A → script B) Q e :
  finishes m Q → (∀ a, Q a → aborts (f a) e) → aborts (m ≫= f) e.
Proof.
  intros Hm Hf out. destruct (Hm out) as (a & out' & Hrun & HQ).
  destruct (Hf a HQ out') as (out'' & Hrun').
  exists out''. unfold mbind, script_bind. by rewrite Hrun.
Qed.

Lemma finishes_pcall_aborts (m : script A) e :
  aborts m e → finishes (lua_pcall m) (λ status, status = false).
Proof.
  intros Hm out. destruct (Hm out) as (out' & Hrun).
  exists false, out'. unfold lua_pcall. by rewrite Hrun.
Qed.

Lemma finishes_pcall_finishes (m : script A) Q :
  finishes m Q → finishes (lua_pcall m) (λ status, status = true).
Proof.
  intros Hm out. destruct (Hm out) as (a & out' & Hrun & _).
  exists true, out'. unfold lua_pcall. by rewrite Hrun.
Qed.

End ScriptLogic.

Lemma finishes_print line : finishes (lua_print line) (λ _, True).
Proof. intros out. by eexists _, _. Qed.

Lemma finishes_assert cond msg :
  cond = true → finishes (lua_assert cond msg) (λ _, True).
Proof. intros ->. by apply finishes_ret. Qed.

Lemma aborts_assert cond msg :
  cond = false → aborts (lua_assert cond msg) (AssertionFailed msg).
Proof. intros -> out. by exists out. Qed.

Lemma finishes_callf r v log :
  r = Returned [v] log → finishes (lua_callf r) (λ x, x = v).
Proof. intros ->. by apply finishes_ret. Qed.

Lemma aborts_callf r e : r = Failed e → aborts (lua_callf r) (CallFailed e).
Proof. intros -> out. by exists out. Qed.

Lemma finishes_integer n : finishes (lua_integer (LInteger n)) (λ x, x = n).
Proof. by apply finishes_ret. Qed.

Lemma finishes_field t key n :
  t !! key = Some (LInteger n) → finishes (lua_field (LTable t) key) (λ x, x = n).
Proof.
  intros Hkey. unfold lua_field. eapply finishes_bind.
  - apply (finishes_ret _ (λ x, x = LInteger n)). by rewrite Hkey.
  - intros ? ->. apply finishes_integer.
Qed.

Lemma finishes_has_field t key msg n :
  t !! key = Some (LInteger n) → finishes (has_field (LTable t) key msg) (λ _, True).
Proof.
  intros Hkey. unfold has_field. eapply finishes_bind.
  - apply (finishes_ret _ (λ x, x = LInteger n)). by rewrite Hkey.
  - intros ? ->. by apply finishes_assert.
Qed.

Lemma finishes_for l body :
  (∀ i, i ∈ l → finishes (body i) (λ _, True)) →
  finishes (lua_for l body) (λ _, True).
Proof.
  induction l as [|i l IH]; intros Hbody; [by apply finishes_ret|].
  cbn [lua_for]. eapply finishes_bind; [apply Hbody; by left|].
  intros _ _. apply IH. intros j Hj. apply Hbody. by right.
Qed.

Lemma aborts_for l1 i l2 body e :
  (∀ j, j ∈ l1 → finishes (body j) (λ _, True)) →
  aborts (body i) e →
  aborts (lua_for (l1 ++ i :: l2) body) e.
Proof.
  induction l1 as [|j l1 IH]; intros Hbody Hi.
  - cbn [app lua_for]. by apply aborts_bind_l.
  - cbn [app lua_for]. eapply aborts_bind_r; [apply Hbody; by left|].
    intros _ _. apply IH; [|done]. intros j' Hj'. apply Hbody. by right.
Qed.

Lemma finishes_for_acc l body (step : Z → Z → Z) acc :
  (∀ i a, i ∈ l → finishes (body i a) (λ a', a' = step a i)) →
  finishes (lua_for_acc l body acc) (λ a', a' = foldl step acc l).
Proof.
  revert acc. induction l as [|i l IH]; intros acc Hbody; [by apply finishes_ret|].
  cbn [lua_for_acc foldl]. eapply finishes_bind; [apply Hbody; by left|].
  intros ? ->. apply IH. intros j a Hj. apply Hbody. by right.
Qed.

(** ** The calls of the test script *)

Lemma base_rows_registered k n slot :
  (n, slot) ∈ base_rows → (n, slot) ∈ rows (cpu_usage_stat k).
Proof. intros Hin. rewrite registry_rows. apply elem_of_app. by left. Qed.

Lemma cpu_table_lookup k i n slot :
  (n, slot) ∈ base_rows →
  cpu_table k i !! field_name n = Some (LInteger (to_lua_Integer (kcpustat k i !!! slot))).
Proof. intros Hin. by apply get_cpu_value, base_rows_registered. Qed.

Lemma all_table_lookup k n slot :
  (n, slot) ∈ base_rows →
  all_table k !! field_name n
  = Some (LInteger (to_lua_Integer (counter_sum k (possible_cpus k) slot))).
Proof.
  intros Hin. unfold all_table.
  rewrite (get_aggregate_value k n slot) by by apply base_rows_registered.
  by rewrite to_lua_Integer_u64.
Qed.

Lemma get_cpu_table k i :
  is_int i → 0 ≤ i < nr_cpu_ids k →
  get k (Some i) = Returned [LTable (cpu_table k i)] [i].
Proof. apply get_cpu. Qed.

Lemma get_all_table k : get k None = Returned [LTable (all_table k)] (possible_cpus k).
Proof. apply get_none. Qed.

Lemma cpu_range_small n : 0 < n ≤ INT_MAX + 1 → cpu_range n = seqZ 0 n.
Proof.
  intros Hn. unfold cpu_range, lua_sub. unfold INT_MAX in Hn.
  rewrite to_lua_Integer_small by (unfold is_lua_Integer; lia). f_equal. lia.
Qed.

Ltac in_base_rows := unfold base_rows; repeat constructor.

Ltac bind_with tac :=
  eapply finishes_bind; [tac | cbv beta; first [intros ? -> | intros ? _]].
Ltac do_print := bind_with ltac:(apply finishes_print).
Ltac do_assert tac := bind_with ltac:(apply finishes_assert; tac).
Ltac do_all_field k n slot :=
  bind_with ltac:(apply (finishes_field _ _ _ (all_table_lookup k n slot ltac:(in_base_rows)))).
Ltac do_cpu_field k i n slot :=
  bind_with ltac:(apply (finishes_field _ _ _ (cpu_table_lookup k i n slot ltac:(in_base_rows)))).
Ltac do_has_field k n slot :=
  bind_with ltac:(apply (finishes_has_field _ _ _ _ (all_table_lookup k n slot ltac:(in_base_rows)))).

Lemma finishes_busy_total k :
  finishes (busy_total (LTable (all_table k))) (λ _, True).
Proof.
  unfold busy_total.
  do_all_field k "USER"%string CPUTIME_USER.
  do_all_field k "NICE"%string CPUTIME_NICE.
  do_all_field k "SYSTEM"%string CPUTIME_SYSTEM.
  do_all_field k "IDLE"%string CPUTIME_IDLE.
  do_all_field k "IOWAIT"%string CPUTIME_IOWAIT.
  do_all_field k "IRQ"%string CPUTIME_IRQ.
  do_all_field k "SOFTIRQ"%string CPUTIME_SOFTIRQ.
  do_all_field k "STEAL"%string CPUTIME_STEAL.
  by apply finishes_ret.
Qed.

Lemma lua_add_wrap a b : lua_add (to_lua_Integer a) (to_lua_Integer b) = to_lua_Integer (a + b).
Proof. unfold lua_add. by rewrite to_lua_Integer_add_l, to_lua_Integer_add_r. Qed.

Lemma busy_sum_counters k cpus :
  busy_sum k cpus = Zsum ((λ slot, counter_sum k cpus slot) <$> busy_slots).
Proof. apply Zsum_swap. Qed.

Lemma finishes_busy_total_value k :
  finishes (busy_total (LTable (all_table k)))
           (λ total, total = to_lua_Integer (busy_sum k (possible_cpus k))).
Proof.
  unfold busy_total.
  do_all_field k "USER"%string CPUTIME_USER.
  do_all_field k "NICE"%string CPUTIME_NICE.
  do_all_field k "SYSTEM"%string CPUTIME_SYSTEM.
  do_all_field k "IDLE"%string CPUTIME_IDLE.
  do_all_field k "IOWAIT"%string CPUTIME_IOWAIT.
  do_all_field k "IRQ"%string CPUTIME_IRQ.
  do_all_field k "SOFTIRQ"%string CPUTIME_SOFTIRQ.
  do_all_field k "STEAL"%string CPUTIME_STEAL.
  apply finishes_ret.
  rewrite !lua_add_wrap, busy_sum_counters.
  unfold busy_slots. cbn [fmap list_fmap Zsum foldr]. f_equal. lia.
Qed.

Lemma finishes_add_busy_fields k i acc :
  finishes (add_busy_fields (LTable (cpu_table k i)) acc)
           (λ acc', acc' = to_lua_Integer (acc + busy_sum k [i])).
Proof.
  unfold add_busy_fields.
  do_cpu_field k i "USER"%string CPUTIME_USER.
  do_cpu_field k i "NICE"%string CPUTIME_NICE.
  do_cpu_field k i "SYSTEM"%string CPUTIME_SYSTEM.
  do_cpu_field k i "IDLE"%string CPUTIME_IDLE.
  do_cpu_field k i "IOWAIT"%string CPUTIME_IOWAIT.
  do_cpu_field k i "IRQ"%string CPUTIME_IRQ.
  do_cpu_field k i "SOFTIRQ"%string CPUTIME_SOFTIRQ.
  do_cpu_field k i "STEAL"%string CPUTIME_STEAL.
  apply finishes_ret.
  rewrite !lua_add_wrap_r.
  repeat (rewrite <- ?Z.add_assoc; rewrite to_lua_Integer_add_l).
  unfold busy_sum, busy_slots. cbn [fmap list_fmap Zsum foldr]. f_equal. lia.
Qed.

Lemma busy_sum_snoc k cpus i : busy_sum k (cpus ++ [i]) = busy_sum k cpus + busy_sum k [i].
Proof. unfold busy_sum. by rewrite fmap_app, Zsum_app. Qed.

Lemma finishes_get_cpu k i :
  0 ≤ i < nr_cpu_ids k → nr_cpu_ids k ≤ INT_MAX + 1 →
  finishes (cpustat_get k (Some i)) (λ v, v = LTable (cpu_table k i)).
Proof.
  intros Hi Hnr. eapply finishes_callf, get_cpu_table; [|done].
  unfold is_int, INT_MIN, INT_MAX in *. lia.
Qed.

Lemma finishes_get_all k :
  finishes (cpustat_get k None) (λ v, v = LTable (all_table k)).
Proof. eapply finishes_callf, get_all_table. Qed.

Lemma finishes_count k :
  is_uint (nr_cpu_ids k) →
  finishes (cpustat_count k) (λ v, v = LInteger (nr_cpu_ids k)).
Proof.
  intros Hnr. eapply finishes_callf. rewrite count_unfold.
  rewrite to_lua_Integer_small; [done|].
  unfold is_uint in Hnr. unfold is_lua_Integer. lia.
Qed.

Lemma aborts_get_invalid k i :
  is_int i → 0 < nr_cpu_ids k ≤ i →
  aborts (cpustat_get k (Some i)) (CallFailed (invalid_cpu i (nr_cpu_ids k - 1))).
Proof. intros Hint Hi. by apply aborts_callf, get_invalid. Qed.

Lemma foldl_busy_sum k l acc :
  foldl (λ a i, to_lua_Integer (a + busy_sum k [i])) (to_lua_Integer acc) l
  = to_lua_Integer (acc + busy_sum k l).
Proof.
  revert acc. induction l as [|i l IH] using rev_ind; intros acc.
  - cbn. f_equal. unfold busy_sum. cbn. lia.
  - rewrite foldl_app. cbn [foldl]. rewrite IH, to_lua_Integer_add_l, busy_sum_snoc.
    f_equal. lia.
Qed.

Lemma finishes_sum_per_cpu k n :
  0 < n ≤ nr_cpu_ids k → nr_cpu_ids k ≤ INT_MAX + 1 →
  finishes (sum_per_cpu k n) (λ sum, sum = to_lua_Integer (busy_sum k (seqZ 0 n))).
Proof.
  intros Hn Hnr. unfold sum_per_cpu. rewrite cpu_range_small by lia.
  eapply finishes_weaken.
  - apply (finishes_for_acc _ _ (λ a i, to_lua_Integer (a + busy_sum k [i]))).
    intros i a Hi%elem_of_seqZ.
    eapply finishes_bind; [apply finishes_get_cpu; lia|].
    intros ? ->. apply finishes_add_busy_fields.
  - intros sum ->. change 0 with (to_lua_Integer 0) at 1.
    by rewrite foldl_busy_sum.
Qed.

Lemma possible_cpus_all k :
  (∀ c, 0 ≤ c < nr_cpu_ids k → cpu_possible k c = true) →
  possible_cpus k = seqZ 0 (nr_cpu_ids k).
Proof.
  intros Hall. unfold possible_cpus.
  assert (Hin : ∀ c, c ∈ seqZ 0 (nr_cpu_ids k) → cpu_possible k c = true).
  { intros c Hc%elem_of_seqZ. apply Hall. lia. }
  induction (seqZ 0 (nr_cpu_ids k)) as [|c l IH]; [done|].
  rewrite filter_cons_True by (apply Hin; by left).
  f_equal. apply IH. intros c' Hc'. apply Hin. by right.
Qed.


(** ** Test 5: the two totals *)

(** X13: on a kernel whose CPU numbers fit an [int], both totals of Test 5
    are computed without an error: the total of the aggregate table is the
    busy time of the possible CPUs, the sum over [0 .. count() - 1] the busy
    time of all CPU slots, each wrapped to 64 bits; when every slot below
    [nr_cpu_ids] is a possible CPU the script prints the same number
    twice. *)
Theorem test_totals_agree k :
  0 < nr_cpu_ids k ≤ INT_MAX + 1 →
  ∃ total sum,
    finishes (all_stats ← cpustat_get k None; busy_total all_stats) (λ t, t = total) ∧
    finishes (count_result ← cpustat_count k; num_cpus ← lua_integer count_result;
              sum_per_cpu k num_cpus) (λ s, s = sum) ∧
    total = to_lua_Integer (busy_sum k (possible_cpus k)) ∧
    sum = to_lua_Integer (busy_sum k (seqZ 0 (nr_cpu_ids k))) ∧
    ((∀ c, 0 ≤ c < nr_cpu_ids k → cpu_possible k c = true) → total = sum).
Proof.
  intros Hnr. eexists _, _. split; [|split; [|split; [done|split; [done|]]]].
  - eapply finishes_bind; [apply finishes_get_all|].
    intros ? ->. apply finishes_busy_total_value.
  - unfold INT_MAX in Hnr.
    eapply finishes_bind; [apply finishes_count; unfold is_uint; lia|].
    intros ? ->. eapply finishes_bind; [apply finishes_integer|].
    intros ? ->. apply finishes_sum_per_cpu; unfold INT_MAX; lia.
  - intros Hall. by rewrite possible_cpus_all.
Qed.

Lemma test_totals_agree_witness :
  0 < nr_cpu_ids k4 ≤ INT_MAX + 1 ∧
  ∃ total sum,
    finishes (all_stats ← cpustat_get k4 None; busy_total all_stats) (λ t, t = total) ∧
    finishes (count_result ← cpustat_count k4; num_cpus ← lua_integer count_result;
              sum_per_cpu k4 num_cpus) (λ s, s = sum) ∧
    total = to_lua_Integer (busy_sum k4 (possible_cpus k4)) ∧
    sum = to_lua_Integer (busy_sum k4 (seqZ 0 (nr_cpu_ids k4))) ∧
    ((∀ c, 0 ≤ c < nr_cpu_ids k4 → cpu_possible k4 c = true) → total = sum).
Proof.
  assert (Hnr : 0 < nr_cpu_ids k4 ≤ INT_MAX + 1) by (unfold INT_MAX; cbn; lia).
  split; [exact Hnr|]. exact (test_totals_agree k4 Hnr).
Defined.

(** ** The whole script *)

Lemma finishes_test3_body k i :
  0 ≤ i < nr_cpu_ids k → nr_cpu_ids k ≤ INT_MAX + 1 →
  0 ≤ kcpustat k i !!! CPUTIME_USER < 2 ^ 63 →
  0 ≤ kcpustat k i !!! CPUTIME_IDLE < 2 ^ 63 →
  finishes (test3_body k i) (λ _, True).
Proof.
  intros Hi Hnr Huser Hidle. unfold test3_body.
  bind_with ltac:(by apply finishes_get_cpu).
  do_assert ltac:(done).
  do_cpu_field k i "USER"%string CPUTIME_USER.
  do_assert ltac:(by apply bool_decide_eq_true_2, to_lua_Integer_nonneg_small).
  do_cpu_field k i "IDLE"%string CPUTIME_IDLE.
  do_assert ltac:(by apply bool_decide_eq_true_2, to_lua_Integer_nonneg_small).
  do_cpu_field k i "USER"%string CPUTIME_USER.
  do_cpu_field k i "SYSTEM"%string CPUTIME_SYSTEM.
  do_cpu_field k i "IDLE"%string CPUTIME_IDLE.
  apply finishes_print.
Qed.

Lemma aborts_test3_body k i :
  0 ≤ i < nr_cpu_ids k → nr_cpu_ids k ≤ INT_MAX + 1 →
  2 ^ 63 ≤ kcpustat k i !!! CPUTIME_USER < 2 ^ 64 →
  aborts (test3_body k i)
         (AssertionFailed (format "CPU %d user time should be >= 0" [i])).
Proof.
  intros Hi Hnr Huser. unfold test3_body.
  eapply aborts_bind_r; [by apply finishes_get_cpu|]. intros ? ->.
  eapply aborts_bind_r; [by apply finishes_assert|]. intros _ _.
  eapply aborts_bind_r;
    [apply (finishes_field _ _ _ (cpu_table_lookup k i "USER"%string CPUTIME_USER
                                    ltac:(in_base_rows)))|].
  intros ? ->. apply aborts_bind_l, aborts_assert.
  apply bool_decide_eq_false_2. rewrite to_lua_Integer_large by done. lia.
Qed.

(** X14: the script runs to its end, with every assertion holding, on every
    kernel with at least one CPU slot and at most [INT_MAX - 10] of them
    whose [user] and [idle] counters are all below [2^63]. *)
Theorem cpustat_test_passes k :
  0 < nr_cpu_ids k ≤ INT_MAX - 10 →
  (∀ i, 0 ≤ i < nr_cpu_ids k →
        0 ≤ kcpustat k i !!! CPUTIME_USER < 2 ^ 63 ∧
        0 ≤ kcpustat k i !!! CPUTIME_IDLE < 2 ^ 63) →
  finishes (cpustat_test k) (λ _, True).
Proof.
  intros Hnr Hsmall. unfold INT_MAX in Hnr.
  assert (Hmax : nr_cpu_ids k ≤ INT_MAX + 1) by (unfold INT_MAX; lia).
  unfold cpustat_test.
  do_print. do_print.
  bind_with ltac:(apply finishes_count; unfold is_uint; lia).
  bind_with ltac:(apply finishes_integer).
  do_assert ltac:(apply bool_decide_eq_true_2; lia).
  do_print. do_print.
  bind_with ltac:(apply finishes_get_all).
  do_assert ltac:(done).
  do_has_field k "USER"%string CPUTIME_USER.
  do_has_field k "NICE"%string CPUTIME_NICE.
  do_has_field k "SYSTEM"%string CPUTIME_SYSTEM.
  do_has_field k "IDLE"%string CPUTIME_IDLE.
  do_has_field k "IOWAIT"%string CPUTIME_IOWAIT.
  do_has_field k "IRQ"%string CPUTIME_IRQ.
  do_has_field k "SOFTIRQ"%string CPUTIME_SOFTIRQ.
  do_has_field k "STEAL"%string CPUTIME_STEAL.
  do_has_field k "GUEST"%string CPUTIME_GUEST.
  do_has_field k "GUEST_NICE"%string CPUTIME_GUEST_NICE.
  do_print.
  do_all_field k "USER"%string CPUTIME_USER.
  do_all_field k "SYSTEM"%string CPUTIME_SYSTEM.
  do_all_field k "IDLE"%string CPUTIME_IDLE.
  do_print. do_print. do_print.
  bind_with ltac:(rewrite cpu_range_small by lia; apply finishes_for;
                  intros i Hi%elem_of_seqZ;
                  apply finishes_test3_body; [lia|done|apply Hsmall; lia..]).
  do_print. do_print.
  bind_with ltac:(apply finishes_get_cpu; lia).
  bind_with ltac:(apply finishes_get_cpu; lia).
  do_cpu_field k 0 "USER"%string CPUTIME_USER.
  do_cpu_field k 0 "USER"%string CPUTIME_USER.
  do_assert ltac:(by apply bool_decide_eq_true_2).
  do_cpu_field k 0 "SYSTEM"%string CPUTIME_SYSTEM.
  do_cpu_field k 0 "SYSTEM"%string CPUTIME_SYSTEM.
  do_assert ltac:(by apply bool_decide_eq_true_2).
  do_cpu_field k 0 "IDLE"%string CPUTIME_IDLE.
  do_cpu_field k 0 "IDLE"%string CPUTIME_IDLE.
  do_assert ltac:(by apply bool_decide_eq_true_2).
  do_print. do_print.
  bind_with ltac:(apply finishes_busy_total).
  do_print.
  bind_with ltac:(eapply finishes_weaken; [apply finishes_sum_per_cpu; lia|done]).
  do_print. do_print. do_print.
  cbv zeta.
  assert (Hadd : lua_add (nr_cpu_ids k) 10 = nr_cpu_ids k + 10).
  { apply to_lua_Integer_small. unfold is_lua_Integer. lia. }
  rewrite Hadd.
  bind_with ltac:(eapply finishes_pcall_aborts, aborts_get_invalid;
                  [unfold is_int, INT_MIN, INT_MAX; lia|lia]).
  do_assert ltac:(done).
  do_print. do_print. apply finishes_print.
Qed.

Lemma cpustat_test_passes_witness :
  0 < nr_cpu_ids k_idle ≤ INT_MAX - 10 ∧
  (∀ i, 0 ≤ i < nr_cpu_ids k_idle →
        0 ≤ kcpustat k_idle i !!! CPUTIME_USER < 2 ^ 63 ∧
        0 ≤ kcpustat k_idle i !!! CPUTIME_IDLE < 2 ^ 63) ∧
  finishes (cpustat_test k_idle) (λ _, True).
Proof.
  assert (Hnr : 0 < nr_cpu_ids k_idle ≤ INT_MAX - 10) by (unfold INT_MAX; cbn; lia).
  assert (Hsmall : ∀ i, 0 ≤ i < nr_cpu_ids k_idle →
                        0 ≤ kcpustat k_idle i !!! CPUTIME_USER < 2 ^ 63 ∧
                        0 ≤ kcpustat k_idle i !!! CPUTIME_IDLE < 2 ^ 63).
  { intros i _. by vm_compute. }
  split; [exact Hnr|]. split; [exact Hsmall|].
  exact (cpustat_test_passes k_idle Hnr Hsmall).
Defined.

Ltac skip_with tac :=
  eapply aborts_bind_r; [tac | cbv beta; first [intros ? -> | intros ? _]].
Ltac skip_print := skip_with ltac:(apply finishes_print).
Ltac skip_has_field k n slot :=
  skip_with ltac:(apply (finishes_has_field _ _ _ _ (all_table_lookup k n slot ltac:(in_base_rows)))).
Ltac skip_all_field k n slot :=
  skip_with ltac:(apply (finishes_field _ _ _ (all_table_lookup k n slot ltac:(in_base_rows)))).

(** X15: the script is aborted in Test 3, by the assertion on the [user]
    time of CPU [i], as soon as that counter has reached [2^63] (and the
    counters of the CPUs before it have not): the value the module returns
    for it is negative. *)
Theorem cpustat_test_fails k i :
  0 < nr_cpu_ids k ≤ INT_MAX + 1 →
  0 ≤ i < nr_cpu_ids k →
  (∀ j, 0 ≤ j < i →
        0 ≤ kcpustat k j !!! CPUTIME_USER < 2 ^ 63 ∧
        0 ≤ kcpustat k j !!! CPUTIME_IDLE < 2 ^ 63) →
  2 ^ 63 ≤ kcpustat k i !!! CPUTIME_USER < 2 ^ 64 →
  aborts (cpustat_test k)
         (AssertionFailed (format "CPU %d user time should be >= 0" [i])).
Proof.
  intros Hnr Hi Hsmall Hbig. unfold INT_MAX in Hnr.
  assert (Hmax : nr_cpu_ids k ≤ INT_MAX + 1) by (unfold INT_MAX; lia).
  unfold cpustat_test.
  skip_print. skip_print.
  skip_with ltac:(apply finishes_count; unfold is_uint; lia).
  skip_with ltac:(apply finishes_integer).
  skip_with ltac:(apply finishes_assert, bool_decide_eq_true_2; lia).
  skip_print. skip_print.
  skip_with ltac:(apply finishes_get_all).
  skip_with ltac:(by apply finishes_assert).
  skip_has_field k "USER"%string CPUTIME_USER.
  skip_has_field k "NICE"%string CPUTIME_NICE.
  skip_has_field k "SYSTEM"%string CPUTIME_SYSTEM.
  skip_has_field k "IDLE"%string CPUTIME_IDLE.
  skip_has_field k "IOWAIT"%string CPUTIME_IOWAIT.
  skip_has_field k "IRQ"%string CPUTIME_IRQ.
  skip_has_field k "SOFTIRQ"%string CPUTIME_SOFTIRQ.
  skip_has_field k "STEAL"%string CPUTIME_STEAL.
  skip_has_field k "GUEST"%string CPUTIME_GUEST.
  skip_has_field k "GUEST_NICE"%string CPUTIME_GUEST_NICE.
  skip_print.
  skip_all_field k "USER"%string CPUTIME_USER.
  skip_all_field k "SYSTEM"%string CPUTIME_SYSTEM.
  skip_all_field k "IDLE"%string CPUTIME_IDLE.
  skip_print. skip_print. skip_print.
  apply aborts_bind_l.
  rewrite cpu_range_small by lia.
  assert (Hsplit : seqZ 0 (nr_cpu_ids k) = seqZ 0 i ++ i :: seqZ (i + 1) (nr_cpu_ids k - i - 1)).
  { replace (nr_cpu_ids k) with (i + (1 + (nr_cpu_ids k - i - 1))) at 1 by lia.
    rewrite seqZ_app by lia. f_equal.
    rewrite seqZ_app by lia. f_equal. }
  rewrite Hsplit. apply aborts_for.
  - intros j Hj%elem_of_seqZ. apply finishes_test3_body; [lia|done|apply Hsmall; lia..].
  - by apply aborts_test3_body.
Qed.

Lemma cpustat_test_fails_witness :
  0 < nr_cpu_ids k_top ≤ INT_MAX + 1 ∧ 0 ≤ 0 < nr_cpu_ids k_top ∧
  (∀ j, 0 ≤ j < 0 →
        0 ≤ kcpustat k_top j !!! CPUTIME_USER < 2 ^ 63 ∧
        0 ≤ kcpustat k_top j !!! CPUTIME_IDLE < 2 ^ 63) ∧
  2 ^ 63 ≤ kcpustat k_top 0 !!! CPUTIME_USER < 2 ^ 64 ∧
  aborts (cpustat_test k_top)
         (AssertionFailed (format "CPU %d user time should be >= 0" [0])).
Proof.
  assert (Hnr : 0 < nr_cpu_ids k_top ≤ INT_MAX + 1) by (unfold INT_MAX; cbn; lia).
  assert (Hi : 0 ≤ 0 < nr_cpu_ids k_top) by (cbn; lia).
  assert (Hsmall : ∀ j, 0 ≤ j < 0 →
                        0 ≤ kcpustat k_top j !!! CPUTIME_USER < 2 ^ 63 ∧
                        0 ≤ kcpustat k_top j !!! CPUTIME_IDLE < 2 ^ 63) by (intros j Hj; lia).
  assert (Hbig : 2 ^ 63 ≤ kcpustat k_top 0 !!! CPUTIME_USER < 2 ^ 64) by by vm_compute.
  repeat (split; [assumption|]).
  exact (cpustat_test_fails k_top 0 Hnr Hi Hsmall Hbig).
Defined.
